(** * zfs_exporter: the pool topology parser and the pool collectors

    A shallow embedding of [zfs/pool.go] (the parser of the report printed by
    [zpool status -L]) and of the two collectors of [collector/pool.go],
    followed by the properties of the specification that concern them.

    Go strings are byte strings: they are modelled by [string], one [ascii]
    per byte.  Go's [int] is taken to be 64 bits wide and is modelled by [Z];
    the only place where the width matters is the range check of
    [strconv.Atoi].  A Go slice is a [list], [nil] being the empty list, and a
    pair [(value, error)] is a pair whose second component is an
    [option error], [None] standing for a nil error. *)

From Stdlib Require Import String Ascii List ZArith Lia Bool Permutation.
Import ListNotations.

Local Open Scope string_scope.
Local Open Scope Z_scope.
Local Open Scope list_scope.

(* ===================================================================== *)
(** ** The parts of Go's [strings] package that the parser calls *)
(* ===================================================================== *)

Module Strings.

(** [len(s)]: the number of bytes of [s]. *)
Definition len (s : string) : Z := Z.of_nat (String.length s).

(** [strings.HasPrefix(s, prefix)]. *)
Fixpoint HasPrefix (s prefix : string) {struct prefix} : bool :=
  match prefix with
  | EmptyString => true
  | String p prefix' =>
      match s with
      | EmptyString => false
      | String c s' => Ascii.eqb c p && HasPrefix s' prefix'
      end
  end.

(** [strings.Contains(s, substr)]: [substr] occurs at some offset of [s]. *)
Fixpoint Contains (s substr : string) {struct s} : bool :=
  HasPrefix s substr ||
  match s with
  | EmptyString => false
  | String _ s' => Contains s' substr
  end.

(** Membership of a byte in an ASCII cutset. *)
Fixpoint inCutset (c : ascii) (cutset : string) : bool :=
  match cutset with
  | EmptyString => false
  | String d cutset' => Ascii.eqb c d || inCutset c cutset'
  end.

(** [strings.TrimLeft(s, cutset)] for a cutset of ASCII bytes, the only use
    the parser makes of it (the cutset is one space): the leading bytes of
    [s] that belong to the cutset are removed. *)
Fixpoint TrimLeft (s cutset : string) {struct s} : string :=
  match s with
  | EmptyString => EmptyString
  | String c s' => if inCutset c cutset then TrimLeft s' cutset else s
  end.

(** The value of a byte. *)
Definition byte (c : ascii) : N := N_of_ascii c.

(** The table [asciiSpace]: tab, line feed, vertical tab, form feed,
    carriage return and space. *)
Definition asciiSpace (c : ascii) : bool :=
  let b := byte c in
  ((9 <=? b) && (b <=? 13) || (b =? 32))%N.

(** The UTF-8 encodings of the white space runes of [unicode.IsSpace] that
    are not ASCII: U+0085 and U+00A0 on two bytes; U+1680, U+2000 to U+200A,
    U+2028, U+2029, U+202F, U+205F and U+3000 on three. *)
Definition space2 (c1 c2 : ascii) : bool :=
  ((byte c1 =? 194) && ((byte c2 =? 133) || (byte c2 =? 160)))%N.

Definition space3 (c1 c2 c3 : ascii) : bool :=
  let b1 := byte c1 in
  let b2 := byte c2 in
  let b3 := byte c3 in
  ((b1 =? 225) && (b2 =? 154) && (b3 =? 128)
   || (b1 =? 226) && (b2 =? 128)
        && ((128 <=? b3) && (b3 <=? 138) || (b3 =? 168) || (b3 =? 169)
            || (b3 =? 175))
   || (b1 =? 226) && (b2 =? 129) && (b3 =? 159)
   || (b1 =? 227) && (b2 =? 128) && (b3 =? 128))%N.

(** The number of bytes of the white space rune that [s] starts with, and 0
    when [s] starts with none.  A UTF-8 decoder that walks a string always
    stops on a lead byte it meets (a well-formed sequence only swallows
    continuation bytes, an ill-formed byte is consumed alone), so the white
    space runes of a string are exactly the occurrences of these byte
    sequences. *)
Definition spaceWidth (s : string) : nat :=
  match s with
  | EmptyString => 0%nat
  | String c1 s1 =>
      if asciiSpace c1 then 1%nat
      else
        match s1 with
        | EmptyString => 0%nat
        | String c2 s2 =>
            if space2 c1 c2 then 2%nat
            else
              match s2 with
              | EmptyString => 0%nat
              | String c3 _ => if space3 c1 c2 c3 then 3%nat else 0%nat
              end
        end
  end.

(** The field under construction is closed, if it was started. *)
Definition flush (cur : string) : list string :=
  match cur with
  | EmptyString => []
  | String _ _ => [cur]
  end.

(** The loop of [strings.FieldsFunc(s, unicode.IsSpace)]: [cur] holds the
    bytes of the field in progress (empty when none is). *)
Fixpoint fieldsFrom (cur : string) (s : string) {struct s} : list string :=
  match s with
  | EmptyString => flush cur
  | String c1 s1 =>
      match spaceWidth s with
      | O => fieldsFrom (cur ++ String c1 EmptyString)%string s1
      | S O => flush cur ++ fieldsFrom EmptyString s1
      | S (S O) =>
          match s1 with
          | String _ s2 => flush cur ++ fieldsFrom EmptyString s2
          | EmptyString => flush cur
          end
      | S (S (S _)) =>
          match s1 with
          | String _ (String _ s3) => flush cur ++ fieldsFrom EmptyString s3
          | _ => flush cur
          end
      end
  end.

(** [strings.Fields(s)]: the maximal runs of [s] free of white space. *)
Definition Fields (s : string) : list string := fieldsFrom EmptyString s.

(** [strings.ReplaceAll(s, old, new)] for an [old] that is not empty: the
    occurrences of [old] are replaced from left to right, without overlap.
    [skip] counts the bytes of the occurrence under replacement that are
    still to be dropped. *)
Fixpoint replaceFrom (skip : nat) (s old new : string) {struct s} : string :=
  match s with
  | EmptyString => EmptyString
  | String c s' =>
      match skip with
      | S skip' => replaceFrom skip' s' old new
      | O =>
          if HasPrefix s old
          then (new ++ replaceFrom (String.length old - 1) s' old new)%string
          else String c (replaceFrom 0 s' old new)
      end
  end.

Definition ReplaceAll (s old new : string) : string := replaceFrom 0 s old new.

(** [strings.Repeat] of one byte. *)
Fixpoint Repeat (c : ascii) (count : nat) : string :=
  match count with
  | O => EmptyString
  | S count' => String c (Repeat c count')
  end.

End Strings.

(* ===================================================================== *)
(** ** [strconv.Atoi] *)
(* ===================================================================== *)

Module Strconv.

Inductive errKind : Type := ErrSyntax | ErrRange.

(** [*strconv.NumError]: the function that failed, its input and the reason. *)
Record NumError : Type := mkNumError
  { Func : string; Num : string; Err : errKind }.

Definition error : Type := NumError.

(** [strconv.IntSize] on a 64-bit platform. *)
Definition intSize : Z := 64.

Definition maxUint64 : Z := 2 ^ 64 - 1.

(** The value of a decimal digit, [None] for any other byte. *)
Definition digit (c : ascii) : option Z :=
  let b := Z.of_N (N_of_ascii c) in
  if (48 <=? b) && (b <=? 57) then Some (b - 48) else None.

(** The digit loop of the fast path of [Atoi]: at most 18 digits, so that the
    accumulator cannot overflow. *)
Fixpoint fastDigits (n : Z) (s : string) : option Z :=
  match s with
  | EmptyString => Some n
  | String ch s' =>
      match digit ch with
      | None => None
      | Some d => fastDigits (n * 10 + d) s'
      end
  end.

(** The digit loop of [ParseUint(s, 10, 64)]: a byte that is no digit is a
    syntax error, a value beyond [maxUint64] a range error, whichever comes
    first. *)
Fixpoint uintDigits (n : Z) (s : string) : errKind + Z :=
  match s with
  | EmptyString => inr n
  | String ch s' =>
      match digit ch with
      | None => inl ErrSyntax
      | Some d =>
          let n1 := n * 10 + d in
          if n1 >? maxUint64 then inl ErrRange else uintDigits n1 s'
      end
  end.

Definition ParseUint (s : string) : errKind + Z :=
  match s with
  | EmptyString => inl ErrSyntax
  | String _ _ => uintDigits 0 s
  end.

Definition isSign (c : ascii) : bool := Ascii.eqb c "+" || Ascii.eqb c "-".

(** [ParseInt(s, 10, 0)]: an optional sign, then [ParseUint], then the range
    check against the [intSize]-bit signed integers. *)
Definition ParseInt (s : string) : errKind + Z :=
  match s with
  | EmptyString => inl ErrSyntax
  | String c s' =>
      let neg := Ascii.eqb c "-" in
      match ParseUint (if isSign c then s' else s) with
      | inl e => inl e
      | inr un =>
          let cutoff := 2 ^ (intSize - 1) in
          if negb neg && (un >=? cutoff) then inl ErrRange
          else if neg && (un >? cutoff) then inl ErrRange
          else inr (if neg then - un else un)
      end
  end.

(** [strconv.Atoi(s)]: the fast path for inputs of 1 to 18 bytes, [ParseInt]
    for the others; the error names [Atoi] and the whole input. *)
Definition Atoi (s : string) : error + Z :=
  let sLen := Strings.len s in
  if (0 <? sLen) && (sLen <? 19) then
    match s with
    | EmptyString => inl (mkNumError "Atoi" s ErrSyntax)
    | String c s' =>
        let digits := if isSign c then s' else s in
        match digits with
        | EmptyString => inl (mkNumError "Atoi" s ErrSyntax)
        | String _ _ =>
            match fastDigits 0 digits with
            | None => inl (mkNumError "Atoi" s ErrSyntax)
            | Some n => inr (if Ascii.eqb c "-" then - n else n)
            end
        end
    end
  else
    match ParseInt s with
    | inl e => inl (mkNumError "Atoi" s e)
    | inr i64 => inr i64
    end.

(** The strings of 1 to 18 decimal digits. *)
Fixpoint digitsOnly (s : string) : bool :=
  match s with
  | EmptyString => true
  | String c s' =>
      match digit c with
      | Some _ => digitsOnly s'
      | None => false
      end
  end.

Definition shortDecimal (s : string) : bool :=
  digitsOnly s && (0 <? Strings.len s) && (Strings.len s <? 19).

(** The bounds of an [int]. *)
Definition minInt : Z := - 2 ^ (intSize - 1).
Definition maxInt : Z := 2 ^ (intSize - 1) - 1.

End Strconv.

(* ===================================================================== *)
(** ** [zfs/pool.go]: the parser of the pool topology *)
(* ===================================================================== *)

Module Zfs.

Import Strings.

(** [PoolDisk]: one row of the recovered topology.  A field that a composite
    literal leaves out has its zero value: the empty string, or 0. *)
Record PoolDisk : Type := mkPoolDisk
  { Zpool : string;
    Vdev : string;
    Name : string;
    Kind : string;
    State : string;
    ReadErrors : Z;
    WriteErrors : Z;
    ChecksumErrors : Z }.

Definition error : Type := Strconv.error.

(** [len(line) - len(strings.TrimLeft(line, " "))]: the number of leading
    spaces of a line. *)
Definition padding (line : string) : Z :=
  len line - len (TrimLeft line " ").

(** The test that recognises the header of the topology block. *)
Definition isHeader (line : string) : bool :=
  Contains line "NAME" && Contains line "STATE" && Contains line "CKSUM".

(** The local variables of [parsePoolDisksFromLines]. *)
Record locals : Type := mkLocals
  { poolDisks : list PoolDisk;
    isInsideDisks : bool;
    minPadding : Z;
    currentZpool : string;
    currentVdev : string }.

(** The variables as they are declared before the loop. *)
Definition entry : locals :=
  {| poolDisks := [];
     isInsideDisks := false;
     minPadding := 0;
     currentZpool := "";
     currentVdev := "" |}.

Definition enterDisks (st : locals) (pad : Z) : locals :=
  {| poolDisks := poolDisks st;
     isInsideDisks := true;
     minPadding := pad;
     currentZpool := currentZpool st;
     currentVdev := currentVdev st |}.

Definition setZpool (st : locals) (zpool : string) : locals :=
  {| poolDisks := poolDisks st;
     isInsideDisks := isInsideDisks st;
     minPadding := minPadding st;
     currentZpool := zpool;
     currentVdev := currentVdev st |}.

Definition setVdev (st : locals) (vdev : string) : locals :=
  {| poolDisks := poolDisks st;
     isInsideDisks := isInsideDisks st;
     minPadding := minPadding st;
     currentZpool := currentZpool st;
     currentVdev := vdev |}.

(** [poolDisks = append(poolDisks, d)]. *)
Definition appendDisk (st : locals) (d : PoolDisk) : locals :=
  {| poolDisks := poolDisks st ++ [d];
     isInsideDisks := isInsideDisks st;
     minPadding := minPadding st;
     currentZpool := currentZpool st;
     currentVdev := currentVdev st |}.

(** What one turn of the loop does to the control flow: go on with the next
    line, leave the loop ([break]), or leave the function with an error. *)
Inductive control : Type :=
  | Next (st : locals)
  | Break (st : locals)
  | Return (err : error).

(** The three conversions of a five-field row, in the order of the source:
    the first one that fails decides the error. *)
Definition counters (rd wr ck : string) : error + (Z * Z * Z) :=
  match Strconv.Atoi rd with
  | inl err => inl err
  | inr readErrors =>
      match Strconv.Atoi wr with
      | inl err => inl err
      | inr writeErrors =>
          match Strconv.Atoi ck with
          | inl err => inl err
          | inr checksumErrors => inr (readErrors, writeErrors, checksumErrors)
          end
      end
  end.

(** The row of a spare: two fields. *)
Definition spareRow (st : locals) (fields : list string) : control :=
  match fields with
  | [name; state] =>
      Next (appendDisk st
              {| Zpool := "spares"; Vdev := ""; Name := name; Kind := "spare";
                 State := state;
                 ReadErrors := 0; WriteErrors := 0; ChecksumErrors := 0 |})
  | _ => Next st
  end.

(** The row of a vdev: five fields; the vdev becomes the current one. *)
Definition vdevRow (st : locals) (fields : list string) : control :=
  match fields with
  | [name; state; rd; wr; ck] =>
      let st1 := setVdev st name in
      match counters rd wr ck with
      | inl err => Return err
      | inr (readErrors, writeErrors, checksumErrors) =>
          Next (appendDisk st1
                  {| Zpool := currentZpool st1; Vdev := currentVdev st1;
                     Name := currentVdev st1; Kind := "vdev"; State := state;
                     ReadErrors := readErrors; WriteErrors := writeErrors;
                     ChecksumErrors := checksumErrors |})
      end
  | _ => Next st
  end.

(** The row of a physical device: five fields. *)
Definition diskRow (st : locals) (fields : list string) : control :=
  match fields with
  | [name; state; rd; wr; ck] =>
      match counters rd wr ck with
      | inl err => Return err
      | inr (readErrors, writeErrors, checksumErrors) =>
          Next (appendDisk st
                  {| Zpool := currentZpool st; Vdev := currentVdev st;
                     Name := name; Kind := "disk"; State := state;
                     ReadErrors := readErrors; WriteErrors := writeErrors;
                     ChecksumErrors := checksumErrors |})
      end
  | _ => Next st
  end.

(** The body of the [for] loop, for one line. *)
Definition body (st : locals) (line : string) : control :=
  if negb (isInsideDisks st) then
    if isHeader line then Next (enterDisks st (padding line)) else Next st
  else
    let currentPadding := padding line in
    if currentPadding >=? minPadding st then
      let fields := Fields line in
      if currentPadding - minPadding st =? 0 then
        match fields with
        | name :: _ => Next (setZpool st name)
        | [] => Next st
        end
      else if currentPadding - minPadding st =? 2 then
        if String.eqb (currentZpool st) "spares" then spareRow st fields
        else vdevRow st fields
      else if currentPadding - minPadding st >=? 4 then diskRow st fields
      else Next st
    else Break st.

(** The loop over the lines, then the final [return poolDisks, nil]; an error
    inside the loop returns [nil] and the error. *)
Fixpoint loop (st : locals) (lines : list string) : list PoolDisk * option error :=
  match lines with
  | [] => (poolDisks st, None)
  | line :: rest =>
      match body st line with
      | Next st' => loop st' rest
      | Break st' => (poolDisks st', None)
      | Return err => ([], Some err)
      end
  end.

Definition parsePoolDisksFromLines (lines : list string)
  : list PoolDisk * option error :=
  loop entry lines.

(** The executions of the loop as a relation between the variables at the top
    of the loop, the lines left and the values returned: one rule per way of
    leaving a turn of the loop. *)
Inductive runs : locals -> list string -> list PoolDisk * option error -> Prop :=
  | runs_end : forall st,
      runs st [] (poolDisks st, None)
  | runs_next : forall st line rest st' res,
      body st line = Next st' ->
      runs st' rest res ->
      runs st (line :: rest) res
  | runs_break : forall st line rest st',
      body st line = Break st' ->
      runs st (line :: rest) (poolDisks st', None)
  | runs_return : forall st line rest err,
      body st line = Return err ->
      runs st (line :: rest) ([], Some err).

(** A call of the function that returns [res]. *)
Definition parses (lines : list string) (res : list PoolDisk * option error)
  : Prop :=
  runs entry lines res.

(** The input of [TestZFSCommandLineParse], split at the line feeds. *)
Definition sampleLines : list string :=
  [ "pool: ssd_tank";
    " state: ONLINE";
    "  scan: scrub repaired 0B in 02:44:52 with 0 errors on Sun Aug 14 03:08:54 2022";
    "config:";
    "";
    "        NAME        STATE     READ WRITE CKSUM";
    "        ssd_tank    ONLINE       0    13    26";
    "          mirror-0  ONLINE       1    14    27";
    "            sdc     ONLINE       2    15    28";
    "            sda     ONLINE       3    16    29";
    "          mirror-1  ONLINE       4    17    30";
    "            sdh     ONLINE       5    18    31";
    "            sdd     ONLINE       6    19    32";
    "          mirror-2  ONLINE       7    20    33";
    "            sde     ONLINE       8    21    34";
    "            sdf     ONLINE       9    22    35";
    "          mirror-3  ONLINE      10    23    36";
    "            sdg     ONLINE      11    24    37";
    "            sdi     ONLINE      12    25    38";
    "        spares";
    "          sdj       AVAIL";
    "";
    "errors: No known data errors";
    "" ].

Definition onlineRow (zpool vdev name kind : string) (rd wr ck : Z) : PoolDisk :=
  {| Zpool := zpool; Vdev := vdev; Name := name; Kind := kind;
     State := "ONLINE";
     ReadErrors := rd; WriteErrors := wr; ChecksumErrors := ck |}.

(** [expectedOutput] of the same test. *)
Definition expectedOutput : list PoolDisk :=
  [ onlineRow "ssd_tank" "mirror-0" "mirror-0" "vdev" 1 14 27;
    onlineRow "ssd_tank" "mirror-0" "sdc" "disk" 2 15 28;
    onlineRow "ssd_tank" "mirror-0" "sda" "disk" 3 16 29;
    onlineRow "ssd_tank" "mirror-1" "mirror-1" "vdev" 4 17 30;
    onlineRow "ssd_tank" "mirror-1" "sdh" "disk" 5 18 31;
    onlineRow "ssd_tank" "mirror-1" "sdd" "disk" 6 19 32;
    onlineRow "ssd_tank" "mirror-2" "mirror-2" "vdev" 7 20 33;
    onlineRow "ssd_tank" "mirror-2" "sde" "disk" 8 21 34;
    onlineRow "ssd_tank" "mirror-2" "sdf" "disk" 9 22 35;
    onlineRow "ssd_tank" "mirror-3" "mirror-3" "vdev" 10 23 36;
    onlineRow "ssd_tank" "mirror-3" "sdg" "disk" 11 24 37;
    onlineRow "ssd_tank" "mirror-3" "sdi" "disk" 12 25 38;
    {| Zpool := "spares"; Vdev := ""; Name := "sdj"; Kind := "spare";
       State := "AVAIL";
       ReadErrors := 0; WriteErrors := 0; ChecksumErrors := 0 |} ].

(** The records of a given kind. *)
Definition ofKind (kind : string) (disks : list PoolDisk) : list PoolDisk :=
  filter (fun d => String.eqb (Kind d) kind) disks.

(** The record of a given name, if there is one. *)
Definition named (name : string) (disks : list PoolDisk) : option PoolDisk :=
  find (fun d => String.eqb (Name d) name) disks.

(** The cases of [body]: what a turn of the loop does, branch by branch,
    with the tests that lead to the branch. *)
Inductive turn (st : locals) (line : string) : control -> Prop :=
  | turn_header :
      isInsideDisks st = false -> isHeader line = true ->
      turn st line (Next (enterDisks st (padding line)))
  | turn_preamble :
      isInsideDisks st = false -> isHeader line = false ->
      turn st line (Next st)
  | turn_end :
      isInsideDisks st = true -> padding line < minPadding st ->
      turn st line (Break st)
  | turn_zpool : forall name fields,
      isInsideDisks st = true -> padding line - minPadding st = 0 ->
      Fields line = name :: fields ->
      turn st line (Next (setZpool st name))
  | turn_zpool_blank :
      isInsideDisks st = true -> padding line - minPadding st = 0 ->
      Fields line = [] ->
      turn st line (Next st)
  | turn_spare : forall name state,
      isInsideDisks st = true -> padding line - minPadding st = 2 ->
      currentZpool st = "spares" ->
      Fields line = [name; state] ->
      turn st line
        (Next (appendDisk st
                 {| Zpool := "spares"; Vdev := ""; Name := name; Kind := "spare";
                    State := state;
                    ReadErrors := 0; WriteErrors := 0; ChecksumErrors := 0 |}))
  | turn_spare_skip :
      isInsideDisks st = true -> padding line - minPadding st = 2 ->
      currentZpool st = "spares" ->
      length (Fields line) <> 2%nat ->
      turn st line (Next st)
  | turn_vdev : forall name state rd wr ck readErrors writeErrors checksumErrors,
      isInsideDisks st = true -> padding line - minPadding st = 2 ->
      currentZpool st <> "spares" ->
      Fields line = [name; state; rd; wr; ck] ->
      counters rd wr ck = inr (readErrors, writeErrors, checksumErrors) ->
      turn st line
        (Next (appendDisk (setVdev st name)
                 {| Zpool := currentZpool st; Vdev := name; Name := name;
                    Kind := "vdev"; State := state;
                    ReadErrors := readErrors; WriteErrors := writeErrors;
                    ChecksumErrors := checksumErrors |}))
  | turn_vdev_error : forall name state rd wr ck err,
      isInsideDisks st = true -> padding line - minPadding st = 2 ->
      currentZpool st <> "spares" ->
      Fields line = [name; state; rd; wr; ck] ->
      counters rd wr ck = inl err ->
      turn st line (Return err)
  | turn_vdev_skip :
      isInsideDisks st = true -> padding line - minPadding st = 2 ->
      currentZpool st <> "spares" ->
      length (Fields line) <> 5%nat ->
      turn st line (Next st)
  | turn_disk : forall name state rd wr ck readErrors writeErrors checksumErrors,
      isInsideDisks st = true -> padding line - minPadding st >= 4 ->
      Fields line = [name; state; rd; wr; ck] ->
      counters rd wr ck = inr (readErrors, writeErrors, checksumErrors) ->
      turn st line
        (Next (appendDisk st
                 {| Zpool := currentZpool st; Vdev := currentVdev st; Name := name;
                    Kind := "disk"; State := state;
                    ReadErrors := readErrors; WriteErrors := writeErrors;
                    ChecksumErrors := checksumErrors |}))
  | turn_disk_error : forall name state rd wr ck err,
      isInsideDisks st = true -> padding line - minPadding st >= 4 ->
      Fields line = [name; state; rd; wr; ck] ->
      counters rd wr ck = inl err ->
      turn st line (Return err)
  | turn_disk_skip :
      isInsideDisks st = true -> padding line - minPadding st >= 4 ->
      length (Fields line) <> 5%nat ->
      turn st line (Next st)
  | turn_odd :
      isInsideDisks st = true ->
      padding line - minPadding st = 1 \/ padding line - minPadding st = 3 ->
      turn st line (Next st).

(** The pool-level context in force after the rows [rows] of a block whose
    header has [minPad] leading spaces, [zpool] being the one before them:
    the first field of the last row at the depth of the header that has a
    field. *)
Fixpoint zpoolAfter (minPad : Z) (zpool : string) (rows : list string) : string :=
  match rows with
  | [] => zpool
  | row :: rest =>
      zpoolAfter minPad
        (if padding row - minPad =? 0
         then match Fields row with name :: _ => name | [] => zpool end
         else zpool)
        rest
  end.

(** A field that [strconv.Atoi] rejects. *)
Definition notInteger (field : string) : Prop :=
  exists err, Strconv.Atoi field = inl err.

(** A five-field row none of whose counters starts with a minus sign; a row
    of another shape has no counter. *)
Definition unsignedRow (line : string) : bool :=
  match Fields line with
  | [_; _; rd; wr; ck] =>
      negb (HasPrefix rd "-") && negb (HasPrefix wr "-") && negb (HasPrefix ck "-")
  | _ => true
  end.

(** The three counters of a record are not negative. *)
Definition nonNegative (d : PoolDisk) : Prop :=
  0 <= ReadErrors d /\ 0 <= WriteErrors d /\ 0 <= ChecksumErrors d.


(** The three counters of a record are zero. *)
Definition zeroCounters (d : PoolDisk) : Prop :=
  ReadErrors d = 0 /\ WriteErrors d = 0 /\ ChecksumErrors d = 0.



(** A block that a blank line ends, followed by a row whose first counter is
    no number. *)
Definition endedBlockLines : list string :=
  [ "  NAME STATE READ WRITE CKSUM";
    "  tank ONLINE 0 0 0";
    "";
    "      sdb ONLINE x 0 0" ].


(** A vdev row whose first counter has a minus sign. *)
Definition signedLines : list string :=
  [ "NAME STATE READ WRITE CKSUM";
    "tank ONLINE 0 0 0";
    "  mirror-0 ONLINE -1 0 0" ].



Definition noBlankLines : list string :=
  [ "  NAME STATE READ WRITE CKSUM";
    "  tank ONLINE 0 0 0";
    "    mirror-0 ONLINE 0 0 0" ].

(** A report with no header. *)
Definition noHeaderLines : list string :=
  [ "pool: tank"; " state: ONLINE"; "config:"; ""; "errors: No known data errors" ].

(** *** The rest of [zfs/pool.go] *)

(** The shape of a record: a name and a state that are not empty, and the
    fields that each of the three composite literals sets. *)
Definition wellShaped (d : PoolDisk) : Prop :=
  Name d <> "" /\ State d <> ""
  /\ ((Kind d = "vdev" /\ Vdev d = Name d)
      \/ Kind d = "disk"
      \/ (Kind d = "spare" /\ Zpool d = "spares" /\ Vdev d = "")).

(** The three counters of a record are within the bounds of an [int]. *)
Definition inIntRange (d : PoolDisk) : Prop :=
  Strconv.minInt <= ReadErrors d <= Strconv.maxInt
  /\ Strconv.minInt <= WriteErrors d <= Strconv.maxInt
  /\ Strconv.minInt <= ChecksumErrors d <= Strconv.maxInt.

(** A line whose counters, if it has five fields, are plain decimal numbers
    of at most 18 digits. *)
Definition decimalRow (line : string) : bool :=
  match Fields line with
  | [_; _; rd; wr; ck] =>
      Strconv.shortDecimal rd && Strconv.shortDecimal wr && Strconv.shortDecimal ck
  | _ => true
  end.

(** The byte of a tab, and the string made of one tab. *)
Definition tabByte : ascii := ascii_of_nat 9.
Definition tab : string := String tabByte EmptyString.

(** The normalisation of a line in [poolDisks]: every tab becomes eight
    spaces. *)
Definition expandTabs (text : string) : string :=
  ReplaceAll text tab "        ".

(** What the calls on the [exec.Cmd] of [poolDisks] give: the errors of
    [StdoutPipe], [Start] and [Wait], and the lines that the scanner reads
    from the pipe. *)
Record command (execError : Type) : Type := mkCommand
  { stdoutPipeErr : option execError;
    startErr : option execError;
    scanned : list string;
    waitErr : option execError }.

Arguments mkCommand {execError} stdoutPipeErr startErr scanned waitErr.
Arguments stdoutPipeErr {execError} c.
Arguments startErr {execError} c.
Arguments scanned {execError} c.
Arguments waitErr {execError} c.

(** The errors that [poolDisks] returns: those of the command and those of
    the parser. *)
Inductive clientError (execError : Type) : Type :=
  | ExecError (err : execError)
  | ParseError (err : error).

Arguments ExecError {execError} err.
Arguments ParseError {execError} err.

(** The function [poolDisks] (the name is taken by the local variable of the
    parser): the command is started, its lines are read and normalised, and
    they are parsed once the command has ended without error. *)
Definition runPoolDisks {execError : Type} (cmd : command execError)
  : list PoolDisk * option (clientError execError) :=
  match stdoutPipeErr cmd with
  | Some err => ([], Some (ExecError err))
  | None =>
      match startErr cmd with
      | Some err => ([], Some (ExecError err))
      | None =>
          let lines := map expandTabs (scanned cmd) in
          match waitErr cmd with
          | Some err => ([], Some (ExecError err))
          | None =>
              match parsePoolDisksFromLines lines with
              | (disks, Some err) => (disks, Some (ParseError err))
              | (disks, None) => (disks, None)
              end
          end
      end
  end.

(** [map[string]string], read through its lookup. *)
Definition properties : Type := string -> option string.

(** [newPoolPropertiesImpl]: the empty map. *)
Definition newPoolPropertiesImpl : properties := fun _ => None.



(** A report as [zpool status -L] prints it: the block is indented by a tab. *)
Definition tabbedLines : list string :=
  [ "  pool: tank";
    " state: ONLINE";
    "config:";
    "";
    (tab ++ "NAME        STATE     READ WRITE CKSUM")%string;
    (tab ++ "tank        ONLINE       0     0     0")%string;
    (tab ++ "  mirror-0  ONLINE       0     0     0")%string;
    (tab ++ "    sda     ONLINE       0     0     3")%string;
    (tab ++ "    sdb     ONLINE       0     0     0")%string;
    "";
    "errors: No known data errors" ].

(** Two pools in one report, each with its block. *)
Definition twoPoolLines : list string :=
  [ "        NAME        STATE     READ WRITE CKSUM";
    "        tank        ONLINE       0     0     0";
    "          sda       ONLINE       0     0     0";
    "";
    "errors: No known data errors";
    "";
    "        NAME        STATE     READ WRITE CKSUM";
    "        dozer       ONLINE       0     0     0";
    "          sdb       ONLINE       0     0     0" ].

(** A line moved to the right by [count] spaces. *)
Definition indent (count : nat) (line : string) : string :=
  (Repeat " " count ++ line)%string.

(** The variables of the loop for a report moved to the right by [delta]
    columns: inside the block, the indentation of the header is larger by
    [delta]. *)
Definition shiftPadding (delta : Z) (st : locals) : locals :=
  if isInsideDisks st
  then {| poolDisks := poolDisks st;
          isInsideDisks := true;
          minPadding := minPadding st + delta;
          currentZpool := currentZpool st;
          currentVdev := currentVdev st |}
  else st.

Definition shiftControl (delta : Z) (c : control) : control :=
  match c with
  | Next st => Next (shiftPadding delta st)
  | Break st => Break (shiftPadding delta st)
  | Return err => Return err
  end.

End Zfs.

(* ===================================================================== *)
(** ** [collector/pool.go]: the pool collector and the disk collector *)
(* ===================================================================== *)

Module Collector.

Import Zfs.

(** A [float64] as the collectors build it: the literal [1.0], or the
    conversion [float64(n)] of an [int].  Nothing here computes with floating
    point numbers, so the conversion stays symbolic. *)
Inductive float64 : Type :=
  | FloatOne
  | FloatOfInt (n : Z).

Inductive ValueType : Type := CounterValue | GaugeValue | UntypedValue.

(** [prometheus.Desc], as [prometheus.NewDesc] records it. *)
Record Desc : Type := mkDesc
  { fqName : string;
    help : string;
    variableLabels : list string }.

(** The metric built by [prometheus.MustNewConstMetric], represented by the
    arguments of the call. *)
Record ConstMetric : Type := mkConstMetric
  { desc : Desc;
    valueType : ValueType;
    value : float64;
    labelValues : list string }.

(** The struct [metric] that the collectors send on the channel. *)
Record metric : Type := mkMetric
  { name : string;
    prometheus : ConstMetric }.

(** The constant [namespace] of the package is declared outside this file;
    its value is the prefix of the metric names that [TestZFSCollectDisks]
    expects. *)
Definition namespace : string := "zfs".

(** [prometheus.BuildFQName]: the non-empty parts joined by an underscore, and
    the empty string when the name is empty. *)
Definition BuildFQName (namespace subsystem name : string) : string :=
  if String.eqb name "" then ""
  else if negb (String.eqb namespace "") && negb (String.eqb subsystem "")
  then (namespace ++ "_" ++ subsystem ++ "_" ++ name)%string
  else if negb (String.eqb namespace "") then (namespace ++ "_" ++ name)%string
  else if negb (String.eqb subsystem "") then (subsystem ++ "_" ++ name)%string
  else name.

Definition diskLabels : list string := ["zpool"; "vdev"; "state"; "kind"; "disk"].

Definition diskStatusDesc : Desc :=
  mkDesc (BuildFQName namespace "disk" "status")
         "zfs_exporter: Disk status" diskLabels.

Definition diskReadErrDesc : Desc :=
  mkDesc (BuildFQName namespace "disk" "read_error")
         "zfs_exporter: Disk read errors" diskLabels.

Definition diskWriteErrDesc : Desc :=
  mkDesc (BuildFQName namespace "disk" "write_error")
         "zfs_exporter: Disk write errors" diskLabels.

Definition diskChecksumErrDesc : Desc :=
  mkDesc (BuildFQName namespace "disk" "checksum_error")
         "zfs_exporter: Disk checksum errors" diskLabels.

(** [labelValues] of the loop of [poolDiskCollector.update]. *)
Definition diskLabelValues (disk : PoolDisk) : list string :=
  [Zpool disk; Vdev disk; State disk; Kind disk; Name disk].

(** The transforms that the pool property store names; their bodies are
    outside this file. *)
Inductive transform : Type :=
  | transformNumeric
  | transformMultiplier
  | transformPercentage
  | transformHealthCode
  | transformBool.

(** The struct [property] as [newProperty] is called in the store (the help
    texts are left out). *)
Record property : Type := newProperty
  { propSubsystem : string;
    propName : string;
    propTransform : transform;
    propLabels : list string }.

(** The constant [subsystemPool] is declared outside this file. *)
Definition subsystemPool : string := "pool".

Definition poolLabels : list string := ["pool"].

(** The table [store] of [poolProperties], key by key. *)
Definition poolPropertiesStore : list (string * property) :=
  [ ("allocated", newProperty subsystemPool "allocated_bytes" transformNumeric poolLabels);
    ("dedupratio", newProperty subsystemPool "deduplication_ratio" transformMultiplier poolLabels);
    ("capacity", newProperty subsystemPool "capacity_ratio" transformPercentage poolLabels);
    ("expandsize", newProperty subsystemPool "expand_size_bytes" transformNumeric poolLabels);
    ("fragmentation", newProperty subsystemPool "fragmentation_ratio" transformPercentage poolLabels);
    ("free", newProperty subsystemPool "free_bytes" transformNumeric poolLabels);
    ("freeing", newProperty subsystemPool "freeing_bytes" transformNumeric poolLabels);
    ("health", newProperty subsystemPool "health" transformHealthCode poolLabels);
    ("leaked", newProperty subsystemPool "leaked_bytes" transformNumeric poolLabels);
    ("readonly", newProperty subsystemPool "readonly" transformBool poolLabels);
    ("size", newProperty subsystemPool "size_bytes" transformNumeric poolLabels) ].

(** The errors of the collector that matter here: the one of the property
    store, and the failure of a transform. *)
Inductive collectorError : Type :=
  | errUnsupportedProperty
  | errInvalidValue (v : string).

(** Modelled from the spec: [propertyStore.find] is declared outside this
    file.  The lookup returns the registered property, and fails with
    [errUnsupportedProperty] when the key is not registered; the property
    that comes with the failure is taken to be built from the defaults of the
    store ([defaultSubsystem], [defaultLabels]) and the key. *)
Definition storeFind (k : string) : property * option collectorError :=
  match List.find (fun entry => String.eqb (fst entry) k) poolPropertiesStore with
  | Some entry => (snd entry, None)
  | None => (newProperty subsystemPool k transformNumeric poolLabels,
             Some errUnsupportedProperty)
  end.

Section Collectors.

(** The type behind Go's [error] interface. *)
Variable error : Type.

(** *** [poolDiskCollector.update] *)

(** The body of the loop over the disks; [ch] holds what was sent on the
    channel so far, the oldest first. *)
Definition sendDisk (ch : list metric) (disk : PoolDisk) : list metric :=
  let labelValues := diskLabelValues disk in
  let ch1 :=
    ch ++ [ {| name := "zfs_disk_status";
               prometheus := mkConstMetric diskStatusDesc GaugeValue FloatOne labelValues |} ] in
  if negb (String.eqb (Kind disk) "spare") then
    ch1
      ++ [ {| name := "zfs_disk_read_error";
              prometheus := mkConstMetric diskReadErrDesc GaugeValue
                              (FloatOfInt (ReadErrors disk)) labelValues |} ]
      ++ [ {| name := "zfs_disk_write_error";
              prometheus := mkConstMetric diskWriteErrDesc GaugeValue
                              (FloatOfInt (WriteErrors disk)) labelValues |} ]
      ++ [ {| name := "zfs_disk_checksum_error";
              prometheus := mkConstMetric diskChecksumErrDesc GaugeValue
                              (FloatOfInt (ChecksumErrors disk)) labelValues |} ]
  else ch1.

Fixpoint rangeDisks (ch : list metric) (disks : list PoolDisk) : list metric :=
  match disks with
  | [] => ch
  | disk :: rest => rangeDisks (sendDisk ch disk) rest
  end.

(** [poolDiskCollector.update]: [clientPoolDisks] is what [c.client.PoolDisks()]
    returns, [ch] the channel; the result is the channel after the call and
    the error returned.  The function reads neither [pools] nor [excludes],
    which are left out. *)
Definition update (clientPoolDisks : list PoolDisk * option error)
    (ch : list metric) : list metric * option error :=
  match clientPoolDisks with
  | (_, Some err) => (ch, Some err)
  | (disks, None) => (rangeDisks ch disks, None)
  end.

(** *** [poolCollector.updatePoolMetrics] *)

(** [poolProperties.find] and [property.push] are declared outside this file:
    [find] gives a property and an error, [push] sends on the channel and
    gives an error.  What the function does is recorded as the sequence of
    its calls to the logger and to [push]. *)
Variable prop : Type.
Variable find : string -> prop * option error.
Variable push : prop -> string -> list string -> option error.

Inductive event : Type :=
  | Warn (k : string) (err : error)
  | Push (p : prop) (v : string) (labelValues : list string).

(** The loop over the properties of the pool: [kvs] lists the entries of the
    map in the order in which [range] visits them. *)
Fixpoint rangeProperties (labelValues : list string)
    (kvs : list (string * string)) (trace : list event)
  : list event * option error :=
  match kvs with
  | [] => (trace, None)
  | (k, v) :: rest =>
      let (p, err) := find k in
      let trace1 :=
        match err with
        | Some e => trace ++ [Warn k e]
        | None => trace
        end in
      let trace2 := trace1 ++ [Push p v labelValues] in
      match push p v labelValues with
      | Some e => (trace2, Some e)
      | None => rangeProperties labelValues rest trace2
      end
  end.

(** [updatePoolMetrics]: [properties] is what [p.Properties(c.props...)]
    returns for the pool. *)
Definition updatePoolMetrics
    (properties : list (string * string) * option error) (pool : string)
  : list event * option error :=
  match properties with
  | (_, Some err) => ([], Some err)
  | (kvs, None) => rangeProperties [pool] kvs []
  end.

(** The calls to [push] of a trace, in order. *)
Definition pushes (trace : list event) : list event :=
  filter (fun ev => match ev with Push _ _ _ => true | Warn _ _ => false end) trace.

(** The entries whose key the store knows. *)
Definition registered (kvs : list (string * string)) : list (string * string) :=
  filter (fun kv => match snd (find (fst kv)) with None => true | Some _ => false end) kvs.

(** What skipping the unregistered keys would mean: the calls to [push] and
    the error are those of the registered entries alone. *)
Definition skipsUnregistered (kvs : list (string * string)) (pool : string) : Prop :=
  pushes (fst (updatePoolMetrics (kvs, None) pool))
    = pushes (fst (updatePoolMetrics (registered kvs, None) pool))
  /\ snd (updatePoolMetrics (kvs, None) pool)
    = snd (updatePoolMetrics (registered kvs, None) pool).

(** The events of one entry: the warning if the lookup fails, then the push. *)
Definition entryEvents (labelValues : list string) (kv : string * string)
  : list event :=
  match snd (find (fst kv)) with
  | Some e => [Warn (fst kv) e]
  | None => []
  end ++ [Push (fst (find (fst kv))) (snd kv) labelValues].

(** The entry is pushed without error. *)
Definition pushOk (labelValues : list string) (kv : string * string) : Prop :=
  push (fst (find (fst kv))) (snd kv) labelValues = None.

End Collectors.

Arguments update {error} clientPoolDisks ch.
Arguments Warn {error prop} k err.
Arguments Push {error prop} p v labelValues.
Arguments rangeProperties {error prop} find push labelValues kvs trace.
Arguments updatePoolMetrics {error prop} find push properties pool.
Arguments pushes {error prop} trace.
Arguments registered {error prop} find kvs.
Arguments skipsUnregistered {error prop} find push kvs pool.
Arguments entryEvents {error prop} find labelValues kv.
Arguments pushOk {error prop} find push labelValues kv.




(** The entries of a pool: a key that the store does not know, then one that
    it knows. *)
Definition unknownFirst : list (string * string) :=
  [ ("bogus", "1"); ("size", "2") ].

(** The entries of a pool with an unknown key in the middle, whose value is
    [v]. *)
Definition unknownInside (v : string) : list (string * string) :=
  [("size", "1")] ++ ("bogus", v) :: [("free", "3")].

Fixpoint allDigits (v : string) : bool :=
  match v with
  | EmptyString => true
  | String c v' =>
      match Strconv.digit c with
      | Some _ => allDigits v'
      | None => false
      end
  end.

(** Modelled from the spec: [property.push] is declared outside this file.
    A push applies the transform of the property to the value and fails when
    the value cannot be converted; this one stands for a numeric transform
    and accepts the values made of decimal digits only. *)
Definition pushDecimal (p : property) (v : string) (labelValues : list string)
  : option collectorError :=
  if allDigits v then None else Some (errInvalidValue v).

(** A push that never fails. *)
Definition pushAlways (p : property) (v : string) (labelValues : list string)
  : option collectorError := None.

(** *** The rest of [collector/pool.go] *)

Section PoolCollector.

Variable error : Type.
Variable prop : Type.

(** [poolProperties.find] and the field [desc] of a property, both declared
    outside this file. *)
Variable find : string -> prop * option error.
Variable propDesc : prop -> Desc.

(** What [poolCollector.describe] does: a warning in the log, or a
    descriptor sent on the channel. *)
Inductive described : Type :=
  | LogWarn (k : string) (err : error)
  | SendDesc (d : Desc).

(** [poolCollector.describe]: the loop over [c.props]; a key that the store
    does not know is logged and passed over. *)
Fixpoint poolDescribe (props : list string) (done : list described)
  : list described :=
  match props with
  | [] => done
  | k :: rest =>
      let (p, err) := find k in
      match err with
      | Some e => poolDescribe rest (done ++ [LogWarn k e])
      | None => poolDescribe rest (done ++ [SendDesc (propDesc p)])
      end
  end.

(** The descriptors sent, in order. *)
Definition sentDescs (done : list described) : list Desc :=
  flat_map (fun ev => match ev with SendDesc d => [d] | LogWarn _ _ => [] end) done.

(** The keys logged, in order. *)
Definition warnedKeys (done : list described) : list string :=
  flat_map (fun ev => match ev with LogWarn k _ => [k] | SendDesc _ => [] end) done.

(** The key is in the store. *)
Definition isRegistered (k : string) : bool :=
  match snd (find k) with
  | None => true
  | Some _ => false
  end.

(** [poolCollector.update]: one goroutine per pool runs [updatePoolMetrics]
    and sends its error, if any, on [errChan], whose capacity is the number
    of pools, so that no send waits; the function waits for all of them, and
    then takes the first error of the channel, or returns nil when the
    channel is empty.  [worker] gives the error of [updatePoolMetrics] for a
    pool, and [finished] lists the goroutines in the order in which they
    reach the send. *)
Definition errChan (worker : string -> option error) (finished : list string)
  : list error :=
  flat_map (fun pool => match worker pool with Some e => [e] | None => [] end)
           finished.

Definition poolUpdate (worker : string -> option error) (finished : list string)
  : option error :=
  match errChan worker finished with
  | err :: _ => Some err
  | [] => None
  end.

End PoolCollector.

Arguments LogWarn {error} k err.
Arguments SendDesc {error} d.
Arguments poolDescribe {error prop} find propDesc props done.
Arguments sentDescs {error} done.
Arguments warnedKeys {error} done.
Arguments isRegistered {error prop} find k.
Arguments errChan {error} worker finished.
Arguments poolUpdate {error} worker finished.

(** [poolDiskCollector.describe]: the four descriptors of the disk metrics. *)
Definition diskDescribe (ch : list Desc) : list Desc :=
  ch ++ [diskStatusDesc] ++ [diskReadErrDesc] ++ [diskWriteErrDesc]
     ++ [diskChecksumErrDesc].

End Collector.

Import Strings Zfs.

(* ===================================================================== *)
(** ** Strings and numbers *)
(* ===================================================================== *)



Lemma flush_nonempty (cur f : string) : In f (flush cur) -> f <> "".
Proof.
  destruct cur; simpl; [tauto|].
  intros [<-|[]]; discriminate.
Qed.

Lemma fieldsFrom_cons (cur : string) (c1 : ascii) (s1 : string) :
  fieldsFrom cur (String c1 s1) =
  match spaceWidth (String c1 s1) with
  | O => fieldsFrom (cur ++ String c1 EmptyString)%string s1
  | S O => flush cur ++ fieldsFrom EmptyString s1
  | S (S O) =>
      match s1 with
      | String _ s2 => flush cur ++ fieldsFrom EmptyString s2
      | EmptyString => flush cur
      end
  | S (S (S _)) =>
      match s1 with
      | String _ (String _ s3) => flush cur ++ fieldsFrom EmptyString s3
      | _ => flush cur
      end
  end.
Proof. reflexivity. Qed.

(** No field is empty; the induction is on a bound of the length, since a
    white space rune takes up to three bytes. *)
Lemma fieldsFrom_nonempty (n : nat) :
  forall s cur f,
    (String.length s <= n)%nat -> In f (fieldsFrom cur s) -> f <> "".
Proof.
  induction n as [|n IH]; intros s cur f Hlen Hin.
  - destruct s; simpl in Hlen; [|lia].
    now apply flush_nonempty in Hin.
  - destruct s as [|c1 s1]; [now apply flush_nonempty in Hin|].
    rewrite fieldsFrom_cons in Hin.
    simpl in Hlen.
    destruct (spaceWidth (String c1 s1)) as [|[|[|w]]].
    + apply IH in Hin; [assumption|lia].
    + apply in_app_or in Hin as [Hin|Hin].
      * now apply flush_nonempty in Hin.
      * apply IH in Hin; [assumption|lia].
    + destruct s1 as [|c2 s2]; [now apply flush_nonempty in Hin|].
      apply in_app_or in Hin as [Hin|Hin].
      * now apply flush_nonempty in Hin.
      * simpl in Hlen. apply IH in Hin; [assumption|lia].
    + destruct s1 as [|c2 [|c3 s3]];
        try (now apply flush_nonempty in Hin).
      apply in_app_or in Hin as [Hin|Hin].
      * now apply flush_nonempty in Hin.
      * simpl in Hlen. apply IH in Hin; [assumption|lia].
Qed.

Lemma Fields_nonempty (s f : string) : In f (Fields s) -> f <> "".
Proof.
  unfold Fields. apply (fieldsFrom_nonempty (String.length s)). lia.
Qed.

Lemma digit_range (c : ascii) (d : Z) : Strconv.digit c = Some d -> 0 <= d <= 9.
Proof.
  unfold Strconv.digit.
  destruct (_ && _) eqn:E; [|discriminate].
  intros [= <-].
  apply andb_true_iff in E as [E1 E2].
  apply Z.leb_le in E1, E2. lia.
Qed.

Lemma fastDigits_nonneg (s : string) :
  forall n m, 0 <= n -> Strconv.fastDigits n s = Some m -> 0 <= m.
Proof.
  induction s as [|c s IH]; simpl; intros n m Hn H.
  - injection H as <-. assumption.
  - destruct (Strconv.digit c) as [d|] eqn:Hd; [|discriminate].
    apply digit_range in Hd.
    apply (IH (n * 10 + d)); [lia|assumption].
Qed.

Lemma uintDigits_nonneg (s : string) :
  forall n m, 0 <= n -> Strconv.uintDigits n s = inr m -> 0 <= m.
Proof.
  induction s as [|c s IH]; simpl; intros n m Hn H.
  - injection H as <-. assumption.
  - destruct (Strconv.digit c) as [d|] eqn:Hd; [|discriminate].
    apply digit_range in Hd.
    destruct (_ >? _); [discriminate|].
    apply (IH (n * 10 + d)); [lia|assumption].
Qed.

Lemma ParseUint_nonneg (s : string) (m : Z) :
  Strconv.ParseUint s = inr m -> 0 <= m.
Proof.
  destruct s as [|c s]; [discriminate|].
  change (Strconv.ParseUint (String c s)) with (Strconv.uintDigits 0 (String c s)).
  apply uintDigits_nonneg; lia.
Qed.

(** A field without a leading minus sign converts to a number that is not
    negative. *)
Lemma Atoi_unsigned (s : string) (n : Z) :
  HasPrefix s "-" = false -> Strconv.Atoi s = inr n -> 0 <= n.
Proof.
  unfold Strconv.Atoi.
  destruct s as [|c s']; simpl HasPrefix; intros Hsign.
  - destruct (_ && _); simpl; discriminate.
  - rewrite andb_true_r in Hsign.
    destruct (_ && _).
    + destruct (if Strconv.isSign c then s' else String c s') as [|c0 s0] eqn:Hd;
        [discriminate|].
      destruct (Strconv.fastDigits 0 (String c0 s0)) as [m|] eqn:Hm; [|discriminate].
      rewrite Hsign. intros [= <-].
      apply fastDigits_nonneg in Hm; lia.
    + unfold Strconv.ParseInt. rewrite Hsign.
      destruct (Strconv.ParseUint _) as [e|un] eqn:Hu; [discriminate|].
      apply ParseUint_nonneg in Hu.
      simpl negb. simpl andb.
      destruct (un >=? _); simpl; [discriminate|].
      intros [= <-]. assumption.
Qed.

Lemma counters_unsigned (rd wr ck : string) (r w c : Z) :
  HasPrefix rd "-" = false -> HasPrefix wr "-" = false ->
  HasPrefix ck "-" = false ->
  counters rd wr ck = inr (r, w, c) -> 0 <= r /\ 0 <= w /\ 0 <= c.
Proof.
  unfold counters. intros Hr Hw Hc.
  destruct (Strconv.Atoi rd) as [|r'] eqn:Er; [discriminate|].
  destruct (Strconv.Atoi wr) as [|w'] eqn:Ew; [discriminate|].
  destruct (Strconv.Atoi ck) as [|c'] eqn:Ec; [discriminate|].
  intros [= <- <- <-].
  split; [|split];
    [apply (Atoi_unsigned rd)|apply (Atoi_unsigned wr)|apply (Atoi_unsigned ck)];
    assumption.
Qed.

Lemma counters_notInteger (rd wr ck : string) :
  notInteger rd \/ notInteger wr \/ notInteger ck ->
  exists err, counters rd wr ck = inl err.
Proof.
  unfold counters, notInteger.
  destruct (Strconv.Atoi rd) as [e|r]; [eauto|].
  destruct (Strconv.Atoi wr) as [e|w]; [eauto|].
  destruct (Strconv.Atoi ck) as [e|c]; [eauto|].
  intros [[e H]|[[e H]|[e H]]]; discriminate.
Qed.

(* ===================================================================== *)
(** ** One turn of the loop *)
(* ===================================================================== *)

(** [body] follows the cases of [turn]. *)
Lemma body_turn (st : locals) (line : string) : turn st line (body st line).
Proof.
  unfold body.
  destruct (isInsideDisks st) eqn:Hin; simpl.
  2:{ destruct (isHeader line) eqn:Hh; now constructor. }
  destruct (padding line >=? minPadding st) eqn:Hge.
  2:{ apply turn_end; [assumption|]. rewrite Z.geb_leb in Hge.
      apply Z.leb_gt in Hge. assumption. }
  destruct (padding line - minPadding st =? 0) eqn:H0.
  { apply Z.eqb_eq in H0.
    destruct (Fields line) as [|name fields] eqn:Hf.
    - now apply turn_zpool_blank.
    - now apply turn_zpool with (fields := fields). }
  destruct (padding line - minPadding st =? 2) eqn:H2.
  { apply Z.eqb_eq in H2.
    destruct (String.eqb (currentZpool st) "spares") eqn:Hs.
    - apply String.eqb_eq in Hs. unfold spareRow.
      destruct (Fields line) as [|f0 [|f1 [|f2 fs]]] eqn:Hf;
        try (apply turn_spare_skip; try assumption; rewrite Hf; simpl; lia).
      now apply turn_spare.
    - apply String.eqb_neq in Hs. unfold vdevRow.
      destruct (Fields line) as [|f0 [|f1 [|f2 [|f3 [|f4 [|f5 fs]]]]]] eqn:Hf;
        try (apply turn_vdev_skip; try assumption; rewrite Hf; simpl; lia).
      destruct (counters f2 f3 f4) as [err|[[r w] c]] eqn:Hc.
      + now apply turn_vdev_error with f0 f1 f2 f3 f4.
      + exact (turn_vdev st line f0 f1 f2 f3 f4 r w c Hin H2 Hs Hf Hc). }
  destruct (padding line - minPadding st >=? 4) eqn:H4.
  { rewrite Z.geb_leb in H4. apply Z.leb_le in H4. unfold diskRow.
    destruct (Fields line) as [|f0 [|f1 [|f2 [|f3 [|f4 [|f5 fs]]]]]] eqn:Hf;
      try (apply turn_disk_skip; try assumption; try lia; rewrite Hf; simpl; lia).
    destruct (counters f2 f3 f4) as [err|[[r w] c]] eqn:Hc.
    - apply turn_disk_error with f0 f1 f2 f3 f4; try assumption; lia.
    - apply turn_disk with (rd := f2) (wr := f3) (ck := f4); try assumption; lia. }
  apply turn_odd; [assumption|].
  rewrite Z.geb_leb in Hge, H4.
  apply Z.leb_le in Hge. apply Z.leb_gt in H4.
  apply Z.eqb_neq in H0, H2. lia.
Qed.

Ltac turn_cases H := inversion H; subst; clear H; simpl in *.

(** Only the end of the block leaves the loop, and it changes no variable. *)
Lemma turn_Break (st st' : locals) (line : string) :
  turn st line (Break st') -> st' = st /\ padding line < minPadding st.
Proof. intros H. turn_cases H. auto. Qed.

(** Inside the block, a turn keeps the loop inside it, keeps the indentation
    of the header, and changes the pool context at a pool-level row only. *)
Lemma turn_Next_inside (st st' : locals) (line : string) :
  isInsideDisks st = true ->
  turn st line (Next st') ->
  isInsideDisks st' = true
  /\ minPadding st' = minPadding st
  /\ minPadding st <= padding line
  /\ currentZpool st' =
     (if padding line - minPadding st =? 0
      then match Fields line with name :: _ => name | [] => currentZpool st end
      else currentZpool st).
Proof.
  intros Hin H.
  turn_cases H; try congruence;
    repeat split; try assumption; try lia;
    (destruct (padding line - _ =? 0) eqn:E;
     [apply Z.eqb_eq in E|apply Z.eqb_neq in E]);
    try lia; try reflexivity;
    match goal with
    | F : Fields line = _ |- _ => rewrite F; reflexivity
    end.
Qed.


(* ===================================================================== *)
(** ** The loop *)
(* ===================================================================== *)

(** The function computes an execution. *)
Lemma loop_runs (lines : list string) : forall st, runs st lines (loop st lines).
Proof.
  induction lines as [|line rest IH]; intros st; simpl.
  - constructor.
  - destruct (body st line) as [st'|st'|err] eqn:Hb.
    + now apply runs_next with st'.
    + now apply runs_break.
    + now apply runs_return.
Qed.

(** An execution has one result only. *)
Lemma runs_functional (st : locals) (lines : list string)
    (r1 r2 : list PoolDisk * option error) :
  runs st lines r1 -> runs st lines r2 -> r1 = r2.
Proof.
  intros H1. revert r2.
  induction H1 as [st|st line rest st' res Hb _ IH|st line rest st' Hb
                  |st line rest err Hb];
    intros r2 H2; inversion H2; subst; try congruence.
  apply IH. congruence.
Qed.

(** An invariant of the turns that go on holds of the variables from which
    the records are returned. *)
Lemma loop_invariant (I : locals -> Prop) (P : string -> Prop) :
  (forall st line st', P line -> I st -> turn st line (Next st') -> I st') ->
  forall lines st disks,
    Forall P lines -> I st -> loop st lines = (disks, None) ->
    exists st', I st' /\ poolDisks st' = disks.
Proof.
  intros Hstep lines.
  induction lines as [|line rest IH]; intros st disks HP HI; simpl.
  - intros [= <-]. eauto.
  - inversion HP as [|? ? Hline Hrest]; subst.
    pose proof (body_turn st line) as Ht.
    destruct (body st line) as [st'|st'|err].
    + apply IH; eauto.
    + apply turn_Break in Ht as [-> _]. intros [= <-]. eauto.
    + discriminate.
Qed.

(** The lines before the header change nothing. *)
Lemma loop_preamble (pre rest : list string) (st : locals) :
  isInsideDisks st = false ->
  Forall (fun line => isHeader line = false) pre ->
  loop st (pre ++ rest) = loop st rest.
Proof.
  intros Hin Hpre.
  induction Hpre as [|line pre Hline _ IH]; simpl; [reflexivity|].
  unfold body at 1. rewrite Hin, Hline. simpl. exact IH.
Qed.

(** The header opens the block. *)
Lemma enter_block (pre rows : list string) (hdr : string) :
  Forall (fun line => isHeader line = false) pre ->
  isHeader hdr = true ->
  parsePoolDisksFromLines (pre ++ hdr :: rows)
  = loop (enterDisks entry (padding hdr)) rows.
Proof.
  intros Hpre Hhdr. unfold parsePoolDisksFromLines.
  rewrite loop_preamble by (reflexivity || assumption).
  simpl. unfold body at 1. simpl. rewrite Hhdr. reflexivity.
Qed.




(** The rows of a block that are all indented like the header or more are
    all read, unless one of them is an error. *)
Lemma loop_block (rows rest : list string) :
  forall st,
    isInsideDisks st = true ->
    Forall (fun row => minPadding st <= padding row) rows ->
    (exists err, loop st (rows ++ rest) = ([], Some err))
    \/ exists st',
         loop st (rows ++ rest) = loop st' rest
         /\ isInsideDisks st' = true
         /\ minPadding st' = minPadding st
         /\ currentZpool st' = zpoolAfter (minPadding st) (currentZpool st) rows.
Proof.
  induction rows as [|row rows IH]; intros st Hin Hrows; simpl.
  - right. exists st. auto.
  - inversion Hrows as [|? ? Hrow Hrest]; subst.
    pose proof (body_turn st row) as Ht.
    destruct (body st row) as [st'|st'|err].
    + apply turn_Next_inside in Ht as (Hin' & Hmin & _ & Hz); [|assumption].
      rewrite <- Hmin in Hrest.
      destruct (IH st' Hin' Hrest) as [Herr|(st2 & Hl & Hin2 & Hmin2 & Hz2)].
      * left. assumption.
      * right. exists st2. rewrite Hl, Hin2, Hmin2, Hz2, Hz, Hmin. auto.
    + apply turn_Break in Ht as [_ Hlt]. lia.
    + left. eauto.
Qed.

(** A five-field row with a counter that is no number, at the depth of a vdev
    outside the spares or at the depth of a device, is an error. *)
Lemma body_malformed (st : locals) (row name state rd wr ck : string) :
  isInsideDisks st = true ->
  Fields row = [name; state; rd; wr; ck] ->
  notInteger rd \/ notInteger wr \/ notInteger ck ->
  padding row - minPadding st >= 4
  \/ (padding row - minPadding st = 2 /\ currentZpool st <> "spares") ->
  exists err, body st row = Return err.
Proof.
  intros Hin Hf Hbad Hdepth.
  destruct (counters_notInteger rd wr ck Hbad) as [err Hc].
  exists err.
  pose proof (body_turn st row) as Ht.
  destruct (body st row) as [st'|st'|err'];
    turn_cases Ht; try congruence; try lia;
    try (rewrite Hf in *; simpl in *; congruence);
    try (destruct Hdepth as [?|[? ?]]; congruence || lia).
Qed.

(* ===================================================================== *)
(** ** The sample report *)
(* ===================================================================== *)

(** The parser gives the output that [TestZFSCommandLineParse] expects. *)
Lemma sample_result :
  parsePoolDisksFromLines sampleLines = (expectedOutput, None).
Proof. vm_compute. reflexivity. Qed.

(** C1.  The sample report of pool [ssd_tank] (four mirrors of two disks and
    the spare [sdj]) parses without error into 13 records: 4 of kind vdev, 8
    of kind disk and 1 of kind spare; the record of [mirror-0] carries the
    counters 1, 14 and 27 of its row, and the record of [sdj] has three zero
    counters and the state [AVAIL]. *)
Theorem sample_report_records :
  exists disks,
    parsePoolDisksFromLines sampleLines = (disks, None)
    /\ disks = expectedOutput
    /\ length disks = 13%nat
    /\ length (ofKind "vdev" disks) = 4%nat
    /\ length (ofKind "disk" disks) = 8%nat
    /\ length (ofKind "spare" disks) = 1%nat
    /\ length (ofKind "vdev" disks ++ ofKind "disk" disks ++ ofKind "spare" disks)
       = length disks
    /\ (exists m, named "mirror-0" disks = Some m
                  /\ ReadErrors m = 1 /\ WriteErrors m = 14
                  /\ ChecksumErrors m = 27)
    /\ (exists s, named "sdj" disks = Some s
                  /\ zeroCounters s /\ State s = "AVAIL" /\ Kind s = "spare").
Proof.
  exists expectedOutput.
  split; [exact sample_result|].
  repeat split; try reflexivity.
  - eexists. repeat split; reflexivity.
  - eexists. repeat split; reflexivity.
Qed.

(* ===================================================================== *)
(** ** Reports without a header *)
(* ===================================================================== *)

(** C10.  When no line has the three markers [NAME], [STATE] and [CKSUM], the
    parser returns no record and a nil error. *)
Theorem no_header_no_records (lines : list string) :
  Forall (fun line => isHeader line = false) lines ->
  parsePoolDisksFromLines lines = ([], None).
Proof.
  intros Hlines. unfold parsePoolDisksFromLines.
  rewrite <- (app_nil_r lines).
  rewrite loop_preamble by (reflexivity || assumption).
  reflexivity.
Qed.

Lemma no_header_no_records_witness :
  parsePoolDisksFromLines noHeaderLines = ([], None).
Proof.
  apply (no_header_no_records noHeaderLines).
  repeat constructor.
Defined.

(* ===================================================================== *)
(** ** Parsing twice *)
(* ===================================================================== *)

(** C7.  Two executions of the parser on the same lines return the same
    error and the same records in the same order, which are those that the
    function computes. *)
Theorem parse_twice_same (lines : list string)
    (r1 r2 : list PoolDisk * option error) :
  parses lines r1 ->
  parses lines r2 ->
  snd r1 = snd r2 /\ fst r1 = fst r2 /\ r1 = parsePoolDisksFromLines lines.
Proof.
  unfold parses. intros H1 H2.
  rewrite (runs_functional _ _ _ _ H2 H1).
  repeat split.
  eapply runs_functional; [eassumption|apply loop_runs].
Qed.

Lemma sample_parses : parses sampleLines (expectedOutput, None).
Proof.
  rewrite <- sample_result. apply loop_runs.
Qed.

Lemma parse_twice_same_witness :
  snd (expectedOutput, @None error) = snd (expectedOutput, @None error)
  /\ fst (expectedOutput, @None error) = fst (expectedOutput, @None error)
  /\ (expectedOutput, None) = parsePoolDisksFromLines sampleLines.
Proof.
  apply (parse_twice_same sampleLines (expectedOutput, None) (expectedOutput, None));
    exact sample_parses.
Defined.

(* ===================================================================== *)
(** ** Counters that are no numbers *)
(* ===================================================================== *)

(** C2, as stated, fails: the last row of [endedBlockLines] comes after the
    header, is indented four columns more than it, has five fields and a
    first counter that is no number, and yet the parser returns no error,
    because the empty line before it has ended the block. *)
Lemma malformed_counter_after_block_unnoticed :
  isHeader (nth 0 endedBlockLines "") = true
  /\ Fields (nth 3 endedBlockLines "") = ["sdb"; "ONLINE"; "x"; "0"; "0"]
  /\ notInteger "x"
  /\ padding (nth 3 endedBlockLines "") - padding (nth 0 endedBlockLines "") >= 4
  /\ parsePoolDisksFromLines endedBlockLines = ([], None)
  /\ ~ exists err, snd (parsePoolDisksFromLines endedBlockLines) = Some err.
Proof.
  repeat split; try reflexivity.
  - eexists. vm_compute. reflexivity.
  - vm_compute. discriminate.
  - intros [err H]. vm_compute in H. discriminate.
Qed.

(** C2, amended.  A five-field row of the topology block, that is a row that
    no line indented less than the header separates from the header, at the
    depth of a vdev outside the spares or at the depth of a device, with a
    counter that [strconv.Atoi] rejects, makes the parser return an error and
    no record. *)
Theorem malformed_counter_in_block_aborts
    (pre rows rest : list string) (hdr row name state rd wr ck : string) :
  Forall (fun line => isHeader line = false) pre ->
  isHeader hdr = true ->
  Forall (fun line => padding hdr <= padding line) rows ->
  Fields row = [name; state; rd; wr; ck] ->
  notInteger rd \/ notInteger wr \/ notInteger ck ->
  padding row - padding hdr >= 4
  \/ (padding row - padding hdr = 2
      /\ zpoolAfter (padding hdr) "" rows <> "spares") ->
  exists err,
    parsePoolDisksFromLines (pre ++ hdr :: rows ++ row :: rest) = ([], Some err).
Proof.
  intros Hpre Hhdr Hrows Hf Hbad Hdepth.
  rewrite enter_block by assumption.
  destruct (loop_block rows (row :: rest) (enterDisks entry (padding hdr)))
    as [Herr|(st & Hl & Hin & Hmin & Hz)]; try reflexivity; try assumption.
  simpl in Hmin, Hz.
  rewrite Hl. simpl.
  destruct (body_malformed st row name state rd wr ck) as [err Hb];
    try assumption.
  - rewrite Hmin, Hz. assumption.
  - exists err. rewrite Hb. reflexivity.
Qed.

Lemma malformed_counter_in_block_aborts_witness :
  exists err,
    parsePoolDisksFromLines
      ([] ++ "NAME STATE READ WRITE CKSUM"
          :: ["tank ONLINE 0 0 0"]
          ++ "  mirror-0 ONLINE 0 x 0" :: ["    sda ONLINE 0 0 0"])
    = ([], Some err).
Proof.
  apply (malformed_counter_in_block_aborts
           [] ["tank ONLINE 0 0 0"] ["    sda ONLINE 0 0 0"]
           "NAME STATE READ WRITE CKSUM" "  mirror-0 ONLINE 0 x 0"
           "mirror-0" "ONLINE" "0" "x" "0").
  - constructor.
  - reflexivity.
  - repeat constructor. vm_compute. discriminate.
  - reflexivity.
  - right. left. eexists. vm_compute. reflexivity.
  - right. split; [reflexivity|]. vm_compute. discriminate.
Defined.

(* ===================================================================== *)
(** ** The vdev of a disk record *)
(* ===================================================================== *)









(* ===================================================================== *)
(** ** The counters of the records *)
(* ===================================================================== *)

Lemma Forall_snoc {A : Type} (P : A -> Prop) (l : list A) (x : A) :
  Forall P l -> P x -> Forall P (l ++ [x]).
Proof.
  intros Hl Hx. apply Forall_app. split; [assumption|]. repeat constructor.
  assumption.
Qed.

(** Spare records are built with no counter. *)
Lemma turn_spare_counters (st st' : locals) (line : string) :
  Forall (fun d => Kind d = "spare" -> zeroCounters d) (poolDisks st) ->
  turn st line (Next st') ->
  Forall (fun d => Kind d = "spare" -> zeroCounters d) (poolDisks st').
Proof.
  intros HI H.
  turn_cases H; try assumption;
    apply Forall_snoc; try assumption; simpl; try discriminate.
  intros _. repeat split.
Qed.

(** Counters without a minus sign give counters that are not negative. *)
Lemma turn_unsigned_counters (st st' : locals) (line : string) :
  unsignedRow line = true ->
  Forall nonNegative (poolDisks st) ->
  turn st line (Next st') ->
  Forall nonNegative (poolDisks st').
Proof.
  intros Hrow HI H. unfold unsignedRow in Hrow.
  turn_cases H; try assumption;
    apply Forall_snoc; try assumption; unfold nonNegative; simpl; try lia;
    match goal with
    | F : Fields line = _ |- _ => rewrite F in Hrow
    end;
    apply andb_true_iff in Hrow as [Hrow Hck];
    apply andb_true_iff in Hrow as [Hrd Hwr];
    apply negb_true_iff in Hrd, Hwr, Hck;
    match goal with
    | C : counters ?rd ?wr ?ck = inr _ |- _ =>
        apply (counters_unsigned rd wr ck); assumption
    end.
Qed.

(** C6, as stated, fails: [strconv.Atoi] accepts a sign, so the vdev row of
    [signedLines], whose first counter is written [-1], is accepted and gives
    a record with a negative count of read errors. *)
Lemma negative_counter_accepted :
  exists d,
    parsePoolDisksFromLines signedLines = ([d], None)
    /\ ReadErrors d = -1
    /\ ~ nonNegative d.
Proof.
  eexists. split; [vm_compute; reflexivity|].
  split; [reflexivity|].
  unfold nonNegative. simpl. lia.
Qed.

(** C6, amended.  In the output of an accepted input every record of kind
    spare has its three counters equal to zero; and when no counter of a
    five-field line of the input starts with a minus sign, the three
    counters of every record are not negative. *)
Theorem counters_of_records (lines : list string) (disks : list PoolDisk) :
  parsePoolDisksFromLines lines = (disks, None) ->
  (forall d, In d disks -> Kind d = "spare" -> zeroCounters d)
  /\ (forallb unsignedRow lines = true ->
      forall d, In d disks -> nonNegative d).
Proof.
  intros Hparse. split.
  - destruct (loop_invariant
                (fun st => Forall (fun d => Kind d = "spare" -> zeroCounters d)
                                  (poolDisks st))
                (fun _ => True)
                (fun st line st' _ => turn_spare_counters st st' line)
                lines entry disks)
      as (st & HI & <-); try assumption.
    + apply Forall_forall. auto.
    + constructor.
    + intros d Hd. rewrite Forall_forall in HI. auto.
  - intros Hrows.
    destruct (loop_invariant
                (fun st => Forall nonNegative (poolDisks st))
                (fun line => unsignedRow line = true)
                (fun st line st' => turn_unsigned_counters st st' line)
                lines entry disks)
      as (st & HI & <-); try assumption.
    + apply Forall_forall. apply forallb_forall. assumption.
    + constructor.
    + intros d Hd. rewrite Forall_forall in HI. auto.
Qed.

Lemma counters_of_records_witness :
  Forall (fun d => Kind d = "spare" -> zeroCounters d) expectedOutput
  /\ forallb unsignedRow sampleLines = true
  /\ Forall nonNegative expectedOutput.
Proof.
  destruct (counters_of_records sampleLines expectedOutput sample_result)
    as [Hspare Hall].
  split; [apply Forall_forall; exact Hspare|].
  split; [vm_compute; reflexivity|].
  apply Forall_forall. apply Hall. vm_compute. reflexivity.
Defined.

(* ===================================================================== *)
(** ** The pool of the records *)
(* ===================================================================== *)





(* ===================================================================== *)
(** ** Blank lines and the summary *)
(* ===================================================================== *)




(* ===================================================================== *)
(** ** The disk collector *)
(* ===================================================================== *)

Import Collector.

Lemma sendDisk_app (ch : list metric) (disk : PoolDisk) :
  sendDisk ch disk = ch ++ sendDisk [] disk.
Proof.
  unfold sendDisk.
  destruct (negb (String.eqb (Kind disk) "spare")); simpl;
    rewrite <- ?app_assoc; reflexivity.
Qed.

Lemma rangeDisks_app (disks : list PoolDisk) :
  forall ch, rangeDisks ch disks = ch ++ rangeDisks [] disks.
Proof.
  induction disks as [|disk rest IH]; intros ch; simpl.
  - now rewrite app_nil_r.
  - rewrite IH, (IH (sendDisk [] disk)), sendDisk_app, app_assoc. reflexivity.
Qed.

Lemma rangeDisks_cons (disk : PoolDisk) (rest : list PoolDisk) :
  rangeDisks [] (disk :: rest) = sendDisk [] disk ++ rangeDisks [] rest.
Proof. simpl. apply rangeDisks_app. Qed.




(* ===================================================================== *)
(** ** The pool collector and the keys that the store does not know *)
(* ===================================================================== *)

Section PoolMetrics.

Context {error prop : Type}.
Variable find : string -> prop * option error.
Variable push : prop -> string -> list string -> option error.

(** As long as the pushes succeed, every entry is logged if its key is
    unknown, and pushed. *)
Lemma rangeProperties_ok (labelValues : list string)
    (before rest : list (string * string)) :
  Forall (pushOk find push labelValues) before ->
  forall trace,
    rangeProperties find push labelValues (before ++ rest) trace
    = rangeProperties find push labelValues rest
        (trace ++ flat_map (entryEvents find labelValues) before).
Proof.
  intros Hok.
  induction Hok as [|[k v] before Hkv _ IH]; intros trace; simpl.
  - now rewrite app_nil_r.
  - unfold pushOk in Hkv. unfold entryEvents at 1. simpl in *.
    destruct (find k) as [p [e|]]; simpl in *; rewrite Hkv, IH;
      rewrite <- ?app_assoc; reflexivity.
Qed.

End PoolMetrics.

(** C4, as stated, fails: with the store of the pool properties and a push
    that never fails, the unknown key [bogus] is logged and then pushed all
    the same, so that the calls to [push] are not those of the known keys
    alone. *)
Lemma unregistered_key_not_skipped :
  snd (storeFind "bogus") = Some errUnsupportedProperty
  /\ In (Push (fst (storeFind "bogus")) "1" ["tank"])
        (fst (updatePoolMetrics storeFind pushAlways (unknownFirst, None) "tank"))
  /\ ~ skipsUnregistered storeFind pushAlways unknownFirst "tank".
Proof.
  split; [reflexivity|]. split.
  - vm_compute. auto.
  - intros [H _]. vm_compute in H. discriminate.
Qed.

(** C4, amended.  When the loop of [updatePoolMetrics] reaches a key that the
    store does not know, it logs the warning and then pushes the value with
    the property that the lookup returned, as for a known key.  If that push
    fails, the function returns its error and the keys that remain are not
    pushed; if it succeeds, and the pushes of the remaining keys succeed too,
    every key of the pool is pushed and the function returns no error. *)
Theorem unregistered_key_is_pushed
    (error prop : Type)
    (find : string -> prop * option error)
    (push : prop -> string -> list string -> option error)
    (pool k v : string) (before after : list (string * string))
    (p : prop) (e : error) :
  Forall (pushOk find push [pool]) before ->
  find k = (p, Some e) ->
  (forall e', push p v [pool] = Some e' ->
     updatePoolMetrics find push (before ++ (k, v) :: after, None) pool
     = (flat_map (entryEvents find [pool]) before
          ++ [Warn k e; Push p v [pool]],
        Some e'))
  /\ (push p v [pool] = None ->
      Forall (pushOk find push [pool]) after ->
      updatePoolMetrics find push (before ++ (k, v) :: after, None) pool
      = (flat_map (entryEvents find [pool]) before
           ++ [Warn k e; Push p v [pool]]
           ++ flat_map (entryEvents find [pool]) after,
         None)).
Proof.
  intros Hbefore Hfind.
  unfold updatePoolMetrics.
  rewrite (rangeProperties_ok find push [pool] before ((k, v) :: after) Hbefore).
  simpl. rewrite Hfind. simpl.
  split.
  - intros e' Hpush. rewrite Hpush. rewrite <- app_assoc. reflexivity.
  - intros Hpush Hafter. rewrite Hpush.
    rewrite <- (app_nil_r after) at 1.
    rewrite (rangeProperties_ok find push [pool] after [] Hafter).
    simpl. rewrite <- !app_assoc. reflexivity.
Qed.

Lemma unregistered_key_is_pushed_witness :
  updatePoolMetrics storeFind pushDecimal (unknownInside "x", None) "tank"
  = ([Push (fst (storeFind "size")) "1" ["tank"];
      Warn "bogus" errUnsupportedProperty;
      Push (fst (storeFind "bogus")) "x" ["tank"]],
     Some (errInvalidValue "x"))
  /\ updatePoolMetrics storeFind pushAlways (unknownInside "2", None) "tank"
     = ([Push (fst (storeFind "size")) "1" ["tank"];
         Warn "bogus" errUnsupportedProperty;
         Push (fst (storeFind "bogus")) "2" ["tank"];
         Push (fst (storeFind "free")) "3" ["tank"]],
        None).
Proof.
  split.
  - apply (proj1 (unregistered_key_is_pushed collectorError property
                    storeFind pushDecimal
                    "tank" "bogus" "x" [("size", "1")] [("free", "3")]
                    (fst (storeFind "bogus")) errUnsupportedProperty
                    ltac:(repeat constructor) eq_refl)
                 (errInvalidValue "x")).
    reflexivity.
  - apply (proj2 (unregistered_key_is_pushed collectorError property
                    storeFind pushAlways
                    "tank" "bogus" "2" [("size", "1")] [("free", "3")]
                    (fst (storeFind "bogus")) errUnsupportedProperty
                    ltac:(repeat constructor) eq_refl)).
    + reflexivity.
    + repeat constructor.
Defined.

(* ===================================================================== *)
(** ** Further properties of the parser *)
(* ===================================================================== *)

(** A turn that goes on either leaves the records as they are or appends
    one. *)
Lemma turn_Next_disks (st st' : locals) (line : string) :
  turn st line (Next st') ->
  poolDisks st' = poolDisks st
  \/ exists d, poolDisks st' = poolDisks st ++ [d].
Proof. intros H. turn_cases H; eauto. Qed.

(** Inside the block, a line indented less than the header leaves the loop. *)
Lemma body_end (st : locals) (line : string) :
  isInsideDisks st = true ->
  padding line < minPadding st ->
  body st line = Break st.
Proof.
  intros Hin Hlt. unfold body. rewrite Hin. simpl.
  replace (padding line >=? minPadding st) with false; [reflexivity|].
  symmetry. rewrite Z.geb_leb. apply Z.leb_gt. assumption.
Qed.

Lemma loop_end (rows rest : list string) (ender : string) :
  forall st,
    isInsideDisks st = true ->
    Forall (fun row => minPadding st <= padding row) rows ->
    padding ender < minPadding st ->
    loop st (rows ++ ender :: rest) = loop st rows.
Proof.
  induction rows as [|row rows IH]; intros st Hin Hrows Hlt; simpl.
  - now rewrite body_end.
  - inversion Hrows as [|? ? Hrow Hrest]; subst.
    pose proof (body_turn st row) as Ht.
    destruct (body st row) as [st'|st'|err]; try reflexivity.
    apply turn_Next_inside in Ht as (Hin' & Hmin & _); [|assumption].
    rewrite <- Hmin in Hrest, Hlt.
    apply IH; assumption.
Qed.

(** The records that the loop returns start with those it was given. *)
Lemma loop_extends (lines : list string) :
  forall st disks,
    loop st lines = (disks, None) ->
    exists more, disks = poolDisks st ++ more.
Proof.
  induction lines as [|line rest IH]; intros st disks; simpl.
  - intros [= <-]. exists []. now rewrite app_nil_r.
  - pose proof (body_turn st line) as Ht.
    destruct (body st line) as [st'|st'|err]; [| |discriminate].
    + intros Hl. destruct (IH st' disks Hl) as [more ->].
      destruct (turn_Next_disks st st' line Ht) as [->|[d ->]].
      * eauto.
      * exists (d :: more). now rewrite <- app_assoc.
    + apply turn_Break in Ht as [-> _]. intros [= <-].
      exists []. now rewrite app_nil_r.
Qed.

Lemma loop_prefix (lines1 lines2 : list string) :
  forall st disks,
    loop st (lines1 ++ lines2) = (disks, None) ->
    exists disks1 disks2,
      loop st lines1 = (disks1, None) /\ disks = disks1 ++ disks2.
Proof.
  induction lines1 as [|line rest IH]; intros st disks; simpl.
  - intros Hl. destruct (loop_extends lines2 st disks Hl) as [more ->]. eauto.
  - destruct (body st line) as [st'|st'|err]; [| |discriminate].
    + apply IH.
    + intros [= <-]. exists (poolDisks st'), []. now rewrite app_nil_r.
Qed.

(** An error of [Atoi] names the function and its input. *)
Lemma Atoi_error (s : string) (err : Strconv.error) :
  Strconv.Atoi s = inl err ->
  Strconv.Func err = "Atoi" /\ Strconv.Num err = s.
Proof.
  unfold Strconv.Atoi.
  destruct (_ && _).
  - destruct s as [|c s']; [intros [= <-]; auto|].
    destruct (if Strconv.isSign c then s' else String c s');
      [intros [= <-]; auto|].
    destruct (Strconv.fastDigits _ _); [discriminate|].
    intros [= <-]; auto.
  - destruct (Strconv.ParseInt s); [|discriminate].
    intros [= <-]; auto.
Qed.

Lemma counters_error (rd wr ck : string) (err : error) :
  counters rd wr ck = inl err ->
  Strconv.Atoi rd = inl err \/ Strconv.Atoi wr = inl err
  \/ Strconv.Atoi ck = inl err.
Proof.
  unfold counters.
  destruct (Strconv.Atoi rd) as [e|r]; [intros [= <-]; auto|].
  destruct (Strconv.Atoi wr) as [e|w]; [intros [= <-]; auto|].
  destruct (Strconv.Atoi ck) as [e|c]; [intros [= <-]; auto|].
  discriminate.
Qed.

(** An error of the loop is the error of a counter of a five-field line. *)
Lemma loop_error (lines : list string) :
  forall st disks err,
    loop st lines = (disks, Some err) ->
    disks = []
    /\ exists line name state rd wr ck,
         In line lines /\ Fields line = [name; state; rd; wr; ck]
         /\ counters rd wr ck = inl err.
Proof.
  induction lines as [|line rest IH]; intros st disks err; simpl.
  - discriminate.
  - pose proof (body_turn st line) as Ht.
    destruct (body st line) as [st'|st'|err'].
    + intros Hl. destruct (IH st' disks err Hl)
        as (-> & l & n & s & rd & wr & ck & Hin & Hf & Hc).
      split; [reflexivity|]. exists l, n, s, rd, wr, ck. auto.
    + discriminate.
    + intros [= <- <-]. split; [reflexivity|].
      turn_cases Ht; exists line; eauto 10.
Qed.

Lemma fastDigits_bound (s : string) :
  forall n m,
    0 <= n -> Strconv.fastDigits n s = Some m ->
    0 <= m < (n + 1) * 10 ^ Z.of_nat (String.length s).
Proof.
  induction s as [|c s IH]; simpl String.length; intros n m Hn H.
  - simpl in H. injection H as <-. simpl. lia.
  - simpl in H.
    destruct (Strconv.digit c) as [d|] eqn:Hd; [|discriminate].
    apply digit_range in Hd.
    apply IH in H; [|lia].
    rewrite Nat2Z.inj_succ, Z.pow_succ_r by lia.
    assert (0 < 10 ^ Z.of_nat (String.length s)) by (apply Z.pow_pos_nonneg; lia).
    nia.
Qed.

Lemma int_bounds :
  Strconv.minInt = -9223372036854775808
  /\ Strconv.maxInt = 9223372036854775807.
Proof. split; reflexivity. Qed.

(** A number that [Atoi] returns is within the bounds of an [int]: a value
    beyond them is an error, it does not wrap around. *)
Lemma Atoi_range (s : string) (n : Z) :
  Strconv.Atoi s = inr n -> Strconv.minInt <= n <= Strconv.maxInt.
Proof.
  destruct int_bounds as [-> ->].
  unfold Strconv.Atoi.
  destruct (_ && _) eqn:Hlen.
  - apply andb_true_iff in Hlen as [_ Hlen]. apply Z.ltb_lt in Hlen.
    destruct s as [|c s']; [discriminate|].
    unfold len in Hlen. simpl String.length in Hlen.
    destruct (if Strconv.isSign c then s' else String c s') as [|c0 s0] eqn:Hd;
      [discriminate|].
    assert (Hshort : (String.length (String c0 s0) <= 18)%nat).
    { rewrite <- Hd. destruct (Strconv.isSign c); simpl; lia. }
    destruct (Strconv.fastDigits 0 (String c0 s0)) as [m|] eqn:Hm; [|discriminate].
    apply fastDigits_bound in Hm; [|lia].
    assert (10 ^ Z.of_nat (String.length (String c0 s0)) <= 10 ^ 18)
      by (apply Z.pow_le_mono_r; lia).
    assert (10 ^ 18 = 1000000000000000000) by reflexivity.
    intros [= <-]. destruct (Ascii.eqb c "-"); lia.
  - destruct (Strconv.ParseInt s) as [e|i] eqn:Hp; [discriminate|].
    intros [= <-].
    unfold Strconv.ParseInt in Hp.
    destruct s as [|c s']; [discriminate|].
    destruct (Strconv.ParseUint _) as [e|un] eqn:Hu; [discriminate|].
    apply ParseUint_nonneg in Hu.
    change (2 ^ (Strconv.intSize - 1)) with 9223372036854775808 in Hp.
    destruct (Ascii.eqb c "-"); simpl in Hp.
    + destruct (un >? 9223372036854775808) eqn:Hgt; [discriminate|].
      injection Hp as <-.
      rewrite Z.gtb_ltb in Hgt. apply Z.ltb_ge in Hgt. lia.
    + destruct (un >=? 9223372036854775808) eqn:Hge; [discriminate|].
      injection Hp as <-.
      rewrite Z.geb_leb in Hge. apply Z.leb_gt in Hge. lia.
Qed.

Lemma counters_range (rd wr ck : string) (r w c : Z) :
  counters rd wr ck = inr (r, w, c) ->
  Strconv.minInt <= r <= Strconv.maxInt
  /\ Strconv.minInt <= w <= Strconv.maxInt
  /\ Strconv.minInt <= c <= Strconv.maxInt.
Proof.
  unfold counters.
  destruct (Strconv.Atoi rd) as [|r'] eqn:Er; [discriminate|].
  destruct (Strconv.Atoi wr) as [|w'] eqn:Ew; [discriminate|].
  destruct (Strconv.Atoi ck) as [|c'] eqn:Ec; [discriminate|].
  intros [= <- <- <-].
  split; [|split];
    [apply (Atoi_range rd)|apply (Atoi_range wr)|apply (Atoi_range ck)];
    assumption.
Qed.

Lemma digit_not_sign (c : ascii) (d : Z) :
  Strconv.digit c = Some d -> Strconv.isSign c = false.
Proof.
  destruct c as [[] [] [] [] [] [] [] []]; vm_compute; congruence.
Qed.

Lemma digitsOnly_fast (s : string) :
  Strconv.digitsOnly s = true ->
  forall n, exists m, Strconv.fastDigits n s = Some m.
Proof.
  induction s as [|c s IH]; simpl; intros Hs n.
  - eauto.
  - destruct (Strconv.digit c); [|discriminate]. apply IH. assumption.
Qed.

(** A string of 1 to 18 decimal digits is a number for [Atoi]. *)
Lemma Atoi_shortDecimal (s : string) :
  Strconv.shortDecimal s = true -> exists n, Strconv.Atoi s = inr n.
Proof.
  unfold Strconv.shortDecimal, Strconv.Atoi.
  intros H. apply andb_true_iff in H as [H Hhi].
  apply andb_true_iff in H as [Hd Hlo].
  rewrite Hlo, Hhi. simpl andb. cbv iota.
  destruct s as [|c s']; [discriminate|].
  destruct (digitsOnly_fast _ Hd 0) as [m Hm].
  simpl in Hd.
  destruct (Strconv.digit c) as [d|] eqn:Hc; [|discriminate].
  rewrite (digit_not_sign c d Hc), Hm. eauto.
Qed.

Lemma counters_decimal (rd wr ck : string) :
  Strconv.shortDecimal rd = true -> Strconv.shortDecimal wr = true ->
  Strconv.shortDecimal ck = true ->
  exists r w c, counters rd wr ck = inr (r, w, c).
Proof.
  intros Hr Hw Hc. unfold counters.
  destruct (Atoi_shortDecimal rd Hr) as [r ->].
  destruct (Atoi_shortDecimal wr Hw) as [w ->].
  destruct (Atoi_shortDecimal ck Hc) as [c ->].
  eauto.
Qed.

Lemma loop_decimal (lines : list string) :
  Forall (fun line => decimalRow line = true) lines ->
  forall st, snd (loop st lines) = None.
Proof.
  induction 1 as [|line rest Hline _ IH]; intros st; simpl; [reflexivity|].
  pose proof (body_turn st line) as Ht.
  destruct (body st line) as [st'|st'|err]; [apply IH|reflexivity|].
  exfalso. unfold decimalRow in Hline.
  turn_cases Ht;
    match goal with
    | F : Fields line = _ |- _ => rewrite F in Hline
    end;
    apply andb_true_iff in Hline as [Hline Hck];
    apply andb_true_iff in Hline as [Hrd Hwr];
    match goal with
    | C : counters ?rd ?wr ?ck = inl _ |- _ =>
        destruct (counters_decimal rd wr ck Hrd Hwr Hck) as (r & w & c & Hc);
        congruence
    end.
Qed.



Lemma turn_shape (st st' : locals) (line : string) :
  Forall wellShaped (poolDisks st) ->
  turn st line (Next st') ->
  Forall wellShaped (poolDisks st').
Proof.
  intros HI H.
  turn_cases H; try assumption;
    apply Forall_snoc; try assumption; unfold wellShaped; simpl;
    (split; [|split]);
    try (apply (Fields_nonempty line);
         match goal with F : Fields line = _ |- _ => rewrite F end;
         simpl; tauto);
    auto.
Qed.

Lemma turn_range (st st' : locals) (line : string) :
  Forall inIntRange (poolDisks st) ->
  turn st line (Next st') ->
  Forall inIntRange (poolDisks st').
Proof.
  intros HI H. destruct int_bounds as [Hmin Hmax].
  turn_cases H; try assumption;
    apply Forall_snoc; try assumption; unfold inIntRange; simpl;
    try (rewrite Hmin, Hmax; lia);
    match goal with
    | C : counters ?rd ?wr ?ck = inr _ |- _ =>
        apply (counters_range rd wr ck); assumption
    end.
Qed.

(** X1.  The lines before the header count for nothing: with any lines that
    do not hold the three markers put in front, the parser returns what it
    returns without them. *)
Theorem lines_before_header_ignored (pre lines : list string) :
  Forall (fun line => isHeader line = false) pre ->
  parsePoolDisksFromLines (pre ++ lines) = parsePoolDisksFromLines lines.
Proof.
  intros Hpre. unfold parsePoolDisksFromLines.
  apply loop_preamble; [reflexivity|assumption].
Qed.

Lemma lines_before_header_ignored_witness :
  parsePoolDisksFromLines (["pool: tank"; " state: ONLINE"] ++ noBlankLines)
  = parsePoolDisksFromLines noBlankLines.
Proof.
  apply (lines_before_header_ignored ["pool: tank"; " state: ONLINE"] noBlankLines).
  repeat constructor.
Defined.

(** X2.  The first line of the block that is indented less than the header
    ends the parse: whatever follows it, rows of a second pool included, is
    not read, and the result is that of the lines up to it. *)
Theorem lines_after_block_ignored
    (pre rows rest : list string) (hdr ender : string) :
  Forall (fun line => isHeader line = false) pre ->
  isHeader hdr = true ->
  Forall (fun row => padding hdr <= padding row) rows ->
  padding ender < padding hdr ->
  parsePoolDisksFromLines (pre ++ hdr :: rows ++ ender :: rest)
  = parsePoolDisksFromLines (pre ++ hdr :: rows).
Proof.
  intros Hpre Hhdr Hrows Hlt.
  rewrite !enter_block by assumption.
  apply loop_end; [reflexivity|assumption|assumption].
Qed.

Lemma lines_after_block_ignored_witness :
  parsePoolDisksFromLines twoPoolLines
  = parsePoolDisksFromLines (firstn 3 twoPoolLines).
Proof.
  apply (lines_after_block_ignored
           [] (firstn 2 (skipn 1 twoPoolLines)) (skipn 4 twoPoolLines)
           "        NAME        STATE     READ WRITE CKSUM" "").
  - constructor.
  - reflexivity.
  - repeat constructor; vm_compute; discriminate.
  - reflexivity.
Defined.

(** X3.  The records are appended in the order of the lines: when the parse
    of some lines succeeds, the parse of any prefix of them succeeds too, and
    its records are the first records of the whole. *)
Theorem records_of_prefix_come_first
    (lines1 lines2 : list string) (disks : list PoolDisk) :
  parsePoolDisksFromLines (lines1 ++ lines2) = (disks, None) ->
  exists disks1 disks2,
    parsePoolDisksFromLines lines1 = (disks1, None)
    /\ disks = disks1 ++ disks2.
Proof. apply loop_prefix. Qed.

Lemma records_of_prefix_come_first_witness :
  exists disks1 disks2,
    parsePoolDisksFromLines (firstn 10 sampleLines) = (disks1, None)
    /\ expectedOutput = disks1 ++ disks2.
Proof.
  apply (records_of_prefix_come_first
           (firstn 10 sampleLines) (skipn 10 sampleLines) expectedOutput).
  exact sample_result.
Defined.

(** X4.  The only error of the parser is the error of [strconv.Atoi] on a
    counter: when the parser fails it returns no record, and its error names
    [Atoi] and the third, fourth or fifth field of a five-field line of the
    input, which is a field that [Atoi] rejects. *)
Theorem parse_error_is_a_counter
    (lines : list string) (disks : list PoolDisk) (err : error) :
  parsePoolDisksFromLines lines = (disks, Some err) ->
  disks = []
  /\ Strconv.Func err = "Atoi"
  /\ notInteger (Strconv.Num err)
  /\ exists line name state rd wr ck,
       In line lines /\ Fields line = [name; state; rd; wr; ck]
       /\ (Strconv.Num err = rd \/ Strconv.Num err = wr \/ Strconv.Num err = ck).
Proof.
  intros Hparse.
  destruct (loop_error lines entry disks err Hparse)
    as (-> & line & name & state & rd & wr & ck & Hin & Hf & Hc).
  split; [reflexivity|].
  assert (Hnum : exists field,
             Strconv.Atoi field = inl err
             /\ (field = rd \/ field = wr \/ field = ck)).
  { destruct (counters_error rd wr ck err Hc) as [H|[H|H]]; eauto 6. }
  destruct Hnum as (field & Hatoi & Hfield).
  destruct (Atoi_error field err Hatoi) as [Hfunc Hn].
  split; [assumption|]. split.
  - exists err. rewrite Hn. assumption.
  - exists line, name, state, rd, wr, ck. rewrite Hn. auto.
Qed.

Lemma parse_error_is_a_counter_witness :
  @nil PoolDisk = []
  /\ Strconv.Func (Strconv.mkNumError "Atoi" "x" Strconv.ErrSyntax) = "Atoi"
  /\ notInteger (Strconv.Num (Strconv.mkNumError "Atoi" "x" Strconv.ErrSyntax))
  /\ exists line name state rd wr ck,
       In line ["NAME STATE READ WRITE CKSUM"; "tank ONLINE 0 0 0";
                "  mirror-0 ONLINE 0 x 0"]
       /\ Fields line = [name; state; rd; wr; ck]
       /\ (Strconv.Num (Strconv.mkNumError "Atoi" "x" Strconv.ErrSyntax) = rd
           \/ Strconv.Num (Strconv.mkNumError "Atoi" "x" Strconv.ErrSyntax) = wr
           \/ Strconv.Num (Strconv.mkNumError "Atoi" "x" Strconv.ErrSyntax) = ck).
Proof.
  apply (parse_error_is_a_counter
           ["NAME STATE READ WRITE CKSUM"; "tank ONLINE 0 0 0";
            "  mirror-0 ONLINE 0 x 0"]
           [] (Strconv.mkNumError "Atoi" "x" Strconv.ErrSyntax)).
  vm_compute. reflexivity.
Defined.



(** X6.  Every record of an accepted input has a name and a state that are
    not empty and one of three shapes: kind vdev with its own name for vdev
    field, kind disk, or kind spare with the pool [spares] and no vdev. *)
Theorem records_well_shaped (lines : list string) (disks : list PoolDisk) :
  parsePoolDisksFromLines lines = (disks, None) ->
  Forall wellShaped disks.
Proof.
  intros Hparse.
  destruct (loop_invariant
              (fun st => Forall wellShaped (poolDisks st))
              (fun _ => True)
              (fun st line st' _ => turn_shape st st' line)
              lines entry disks)
    as (st & HI & <-); try assumption.
  - apply Forall_forall. auto.
  - constructor.
Qed.

Lemma records_well_shaped_witness : Forall wellShaped expectedOutput.
Proof.
  apply (records_well_shaped sampleLines expectedOutput).
  exact sample_result.
Defined.

(** X7.  A counter never wraps around: every counter of an accepted input is
    within the bounds of a 64-bit [int], a larger number being an error of
    [Atoi]. *)
Theorem counters_within_int (lines : list string) (disks : list PoolDisk) :
  parsePoolDisksFromLines lines = (disks, None) ->
  Forall inIntRange disks.
Proof.
  intros Hparse.
  destruct (loop_invariant
              (fun st => Forall inIntRange (poolDisks st))
              (fun _ => True)
              (fun st line st' _ => turn_range st st' line)
              lines entry disks)
    as (st & HI & <-); try assumption.
  - apply Forall_forall. auto.
  - constructor.
Qed.

Lemma counters_within_int_witness : Forall inIntRange expectedOutput.
Proof.
  apply (counters_within_int sampleLines expectedOutput).
  exact sample_result.
Defined.

(** X8.  A block whose five-field rows all have counters written with 1 to
    18 decimal digits is accepted: the parser returns no error. *)
Theorem decimal_block_accepted (pre rows : list string) (hdr : string) :
  Forall (fun line => isHeader line = false) pre ->
  isHeader hdr = true ->
  forallb decimalRow rows = true ->
  snd (parsePoolDisksFromLines (pre ++ hdr :: rows)) = None.
Proof.
  intros Hpre Hhdr Hrows.
  rewrite enter_block by assumption.
  apply loop_decimal.
  apply Forall_forall. apply forallb_forall. assumption.
Qed.

Lemma decimal_block_accepted_witness :
  snd (parsePoolDisksFromLines
         (firstn 5 sampleLines
            ++ "        NAME        STATE     READ WRITE CKSUM"
            :: firstn 16 (skipn 6 sampleLines)))
  = None.
Proof.
  apply (decimal_block_accepted
           (firstn 5 sampleLines) (firstn 16 (skipn 6 sampleLines))
           "        NAME        STATE     READ WRITE CKSUM").
  - repeat constructor.
  - reflexivity.
  - vm_compute. reflexivity.
Defined.

(* ===================================================================== *)
(** ** The tabs of the report *)
(* ===================================================================== *)

Lemma expandTabs_cons (c : ascii) (s : string) :
  expandTabs (String c s)
  = if Ascii.eqb c tabByte then ("        " ++ expandTabs s)%string
    else String c (expandTabs s).
Proof.
  unfold expandTabs, ReplaceAll. simpl.
  rewrite andb_true_r. reflexivity.
Qed.

Lemma space2_high (c1 c2 : ascii) :
  space2 c1 c2 = true -> (128 <= byte c2)%N.
Proof.
  unfold space2.
  rewrite andb_true_iff, orb_true_iff, !N.eqb_eq. lia.
Qed.

Lemma space3_high (c1 c2 c3 : ascii) :
  space3 c1 c2 c3 = true -> (128 <= byte c2)%N /\ (128 <= byte c3)%N.
Proof.
  unfold space3. cbv zeta.
  rewrite !orb_true_iff, !andb_true_iff, !orb_true_iff, !andb_true_iff,
    !N.eqb_eq, !N.leb_le.
  lia.
Qed.

Lemma space2_low (c1 c2 : ascii) : (byte c2 < 128)%N -> space2 c1 c2 = false.
Proof.
  intros H. destruct (space2 c1 c2) eqn:E; [|reflexivity].
  apply space2_high in E. lia.
Qed.

Lemma space3_low (c1 c2 c3 : ascii) :
  (byte c2 < 128)%N \/ (byte c3 < 128)%N -> space3 c1 c2 c3 = false.
Proof.
  intros H. destruct (space3 c1 c2 c3) eqn:E; [|reflexivity].
  apply space3_high in E. lia.
Qed.

Lemma not_tab_high (c : ascii) : (128 <= byte c)%N -> Ascii.eqb c tabByte = false.
Proof.
  intros H. apply Ascii.eqb_neq. intros ->. vm_compute in H. now apply H.
Qed.

Lemma spaceWidth_cons2 (c1 c2 : ascii) (s2 : string) :
  asciiSpace c1 = false ->
  spaceWidth (String c1 (String c2 s2))
  = if space2 c1 c2 then 2%nat
    else match s2 with
         | EmptyString => 0%nat
         | String c3 _ => if space3 c1 c2 c3 then 3%nat else 0%nat
         end.
Proof. intros H. unfold spaceWidth. rewrite H. reflexivity. Qed.

(** The white space that starts at a byte is the same before and after the
    expansion of the tabs that follow the byte. *)
Lemma spaceWidth_expandTabs (c1 : ascii) (s1 : string) :
  spaceWidth (String c1 (expandTabs s1)) = spaceWidth (String c1 s1).
Proof.
  destruct (asciiSpace c1) eqn:A1.
  { unfold spaceWidth. rewrite A1. reflexivity. }
  destruct s1 as [|c2 s2]; [reflexivity|].
  rewrite expandTabs_cons.
  destruct (Ascii.eqb c2 tabByte) eqn:E2.
  - apply Ascii.eqb_eq in E2. subst c2.
    change ("        " ++ expandTabs s2)%string
      with (String " " ("       " ++ expandTabs s2)%string).
    rewrite !spaceWidth_cons2 by assumption.
    rewrite !space2_low by (vm_compute; reflexivity).
    change ("       " ++ expandTabs s2)%string
      with (String " " ("      " ++ expandTabs s2)%string).
    cbv beta iota.
    rewrite space3_low by (left; vm_compute; reflexivity).
    destruct s2 as [|c3 s3]; [reflexivity|].
    cbv beta iota.
    rewrite space3_low by (left; vm_compute; reflexivity).
    reflexivity.
  - rewrite !spaceWidth_cons2 by assumption.
    destruct (space2 c1 c2); [reflexivity|].
    destruct s2 as [|c3 s3]; [reflexivity|].
    rewrite expandTabs_cons.
    destruct (Ascii.eqb c3 tabByte) eqn:E3; [|reflexivity].
    apply Ascii.eqb_eq in E3. subst c3.
    change ("        " ++ expandTabs s3)%string
      with (String " " ("       " ++ expandTabs s3)%string).
    cbv beta iota.
    rewrite !space3_low by (right; vm_compute; reflexivity).
    reflexivity.
Qed.

Lemma spaceWidth_two (c1 : ascii) (s1 : string) :
  spaceWidth (String c1 s1) = 2%nat ->
  exists c2 s2, s1 = String c2 s2 /\ (128 <= byte c2)%N.
Proof.
  unfold spaceWidth.
  destruct (asciiSpace c1); [discriminate|].
  destruct s1 as [|c2 s2]; [discriminate|].
  destruct (space2 c1 c2) eqn:E.
  - intros _. apply space2_high in E. eauto.
  - destruct s2 as [|c3 s3]; [discriminate|].
    destruct (space3 c1 c2 c3); discriminate.
Qed.

Lemma spaceWidth_three (c1 : ascii) (s1 : string) (w : nat) :
  spaceWidth (String c1 s1) = S (S (S w)) ->
  exists c2 c3 s3,
    s1 = String c2 (String c3 s3) /\ (128 <= byte c2)%N /\ (128 <= byte c3)%N.
Proof.
  unfold spaceWidth.
  destruct (asciiSpace c1); [discriminate|].
  destruct s1 as [|c2 s2]; [discriminate|].
  destruct (space2 c1 c2); [discriminate|].
  destruct s2 as [|c3 s3]; [discriminate|].
  destruct (space3 c1 c2 c3) eqn:E; [|discriminate].
  intros _. apply space3_high in E. destruct E. eauto 6.
Qed.

Lemma fieldsFrom_spaces (cur rest : string) :
  fieldsFrom cur ("        " ++ rest)%string = flush cur ++ fieldsFrom "" rest.
Proof. reflexivity. Qed.

Lemma fieldsFrom_expandTabs (n : nat) :
  forall s cur,
    (String.length s <= n)%nat ->
    fieldsFrom cur (expandTabs s) = fieldsFrom cur s.
Proof.
  induction n as [|n IH]; intros s cur Hlen.
  - destruct s; [reflexivity|simpl in Hlen; lia].
  - destruct s as [|c1 s1]; [reflexivity|].
    simpl in Hlen.
    rewrite expandTabs_cons.
    destruct (Ascii.eqb c1 tabByte) eqn:E1.
    + apply Ascii.eqb_eq in E1. subst c1.
      rewrite fieldsFrom_spaces.
      change (fieldsFrom cur (String tabByte s1))
        with (flush cur ++ fieldsFrom "" s1).
      f_equal. apply IH. lia.
    + rewrite !fieldsFrom_cons, spaceWidth_expandTabs.
      destruct (spaceWidth (String c1 s1)) as [|[|[|w]]] eqn:W.
      * apply IH. lia.
      * f_equal. apply IH. lia.
      * apply spaceWidth_two in W as (c2 & s2 & -> & H2).
        rewrite expandTabs_cons, (not_tab_high c2 H2).
        f_equal. apply IH. simpl in Hlen. lia.
      * apply spaceWidth_three in W as (c2 & c3 & s3 & -> & H2 & H3).
        rewrite expandTabs_cons, (not_tab_high c2 H2).
        rewrite expandTabs_cons, (not_tab_high c3 H3).
        f_equal. apply IH. simpl in Hlen. lia.
Qed.

(** X9.  The expansion of the tabs changes the indentation of a line only:
    the fields of the line are the same before and after it. *)
Theorem expandTabs_keeps_fields (line : string) :
  Fields (expandTabs line) = Fields line.
Proof.
  unfold Fields. apply (fieldsFrom_expandTabs (String.length line)). lia.
Qed.

Lemma padding_space (s : string) : padding (String " " s) = 1 + padding s.
Proof.
  unfold padding, len. simpl TrimLeft. simpl String.length. lia.
Qed.

Lemma expandTabs_tab (s : string) :
  expandTabs (String tabByte s) = ("        " ++ expandTabs s)%string.
Proof. rewrite expandTabs_cons. reflexivity. Qed.

(** X10.  Each leading tab of a line counts for eight columns of
    indentation once the line is normalised. *)
Theorem leading_tabs_are_eight_columns (count : nat) (text : string) :
  padding (expandTabs (Repeat tabByte count ++ text)%string)
  = 8 * Z.of_nat count + padding (expandTabs text).
Proof.
  induction count as [|count IH].
  - simpl. lia.
  - change (Repeat tabByte (S count) ++ text)%string
      with (String tabByte (Repeat tabByte count ++ text)%string).
    rewrite expandTabs_tab.
    change ("        " ++ expandTabs (Repeat tabByte count ++ text))%string
      with (String " " (String " " (String " " (String " " (String " "
             (String " " (String " " (String " "
                (expandTabs (Repeat tabByte count ++ text)%string))))))))).
    rewrite !padding_space, IH. lia.
Qed.

(* ===================================================================== *)
(** ** The command and the properties of a pool *)
(* ===================================================================== *)

(** X11.  When [poolDisks] returns an error it returns no record, and the
    error is either the error of a step of the command ([StdoutPipe],
    [Start] or [Wait]) or the error of the parser on the normalised lines;
    in particular the records of a report are dropped when [Wait] fails. *)
Theorem poolDisks_error_no_records
    (execError : Type) (cmd : command execError)
    (disks : list PoolDisk) (err : clientError execError) :
  runPoolDisks cmd = (disks, Some err) ->
  disks = []
  /\ ((exists e, err = ExecError e
                 /\ (stdoutPipeErr cmd = Some e \/ startErr cmd = Some e
                     \/ waitErr cmd = Some e))
      \/ (exists e, err = ParseError e
                    /\ parsePoolDisksFromLines (map expandTabs (scanned cmd))
                       = ([], Some e))).
Proof.
  unfold runPoolDisks.
  destruct (stdoutPipeErr cmd) as [e|]; [intros [= <- <-]; eauto 8|].
  destruct (startErr cmd) as [e|]; [intros [= <- <-]; eauto 8|].
  destruct (waitErr cmd) as [e|]; [intros [= <- <-]; eauto 8|].
  destruct (parsePoolDisksFromLines _) as [d [e|]] eqn:Hp; [|discriminate].
  intros [= <- <-].
  destruct (loop_error _ _ _ _ Hp) as [-> _]. eauto 8.
Qed.

Lemma poolDisks_error_no_records_witness :
  @nil PoolDisk = []
  /\ ((exists e, @ExecError string "exit status 1" = ExecError e
                 /\ (@None string = Some e \/ @None string = Some e
                     \/ Some "exit status 1" = Some e))
      \/ (exists e, @ExecError string "exit status 1" = ParseError e
                    /\ parsePoolDisksFromLines (map expandTabs tabbedLines)
                       = ([], Some e))).
Proof.
  apply (poolDisks_error_no_records string
           (mkCommand None None tabbedLines (Some "exit status 1"))
           [] (ExecError "exit status 1")).
  reflexivity.
Defined.


(* ===================================================================== *)
(** ** Further properties of the collectors *)
(* ===================================================================== *)

Section Describe.

Context {error prop : Type}.
Variable find : string -> prop * option error.
Variable propDesc : prop -> Desc.

Lemma poolDescribe_app (props : list string) :
  forall done,
    poolDescribe find propDesc props done
    = done ++ poolDescribe find propDesc props [].
Proof.
  induction props as [|k rest IH]; intros done; simpl.
  - now rewrite app_nil_r.
  - destruct (find k) as [p [e|]];
      rewrite IH, (IH [_]), <- app_assoc; reflexivity.
Qed.

Lemma poolDescribe_cons (k : string) (rest : list string) :
  poolDescribe find propDesc (k :: rest) []
  = match snd (find k) with
    | Some e => LogWarn k e
    | None => SendDesc (propDesc (fst (find k)))
    end :: poolDescribe find propDesc rest [].
Proof.
  simpl. destruct (find k) as [p [e|]]; simpl;
    rewrite poolDescribe_app; reflexivity.
Qed.

End Describe.

(** X13.  [poolCollector.describe] handles every key once and never stops
    early: the descriptors that it sends are those of the keys that the
    store knows, in the order of the keys, and the keys that it logs are the
    others; an unknown key is skipped here. *)
Theorem poolDescribe_skips_unknown
    (error prop : Type) (find : string -> prop * option error)
    (propDesc : prop -> Desc) (props : list string) :
  sentDescs (poolDescribe find propDesc props [])
    = map (fun k => propDesc (fst (find k))) (filter (isRegistered find) props)
  /\ warnedKeys (poolDescribe find propDesc props [])
    = filter (fun k => negb (isRegistered find k)) props
  /\ length (poolDescribe find propDesc props []) = length props.
Proof.
  induction props as [|k rest (IHs & IHw & IHn)]; [repeat split|].
  rewrite poolDescribe_cons. unfold isRegistered in *. simpl.
  destruct (snd (find k)); simpl; rewrite IHs, IHw, IHn; repeat split.
Qed.

Lemma rangeProperties_error
    {error prop : Type} (find : string -> prop * option error)
    (push : prop -> string -> list string -> option error)
    (labelValues : list string) (kvs : list (string * string)) :
  forall trace e,
    snd (rangeProperties find push labelValues kvs trace) = Some e ->
    exists kv, In kv kvs
               /\ push (fst (find (fst kv))) (snd kv) labelValues = Some e.
Proof.
  induction kvs as [|[k v] rest IH]; intros trace e; simpl.
  - discriminate.
  - destruct (find k) as [p err] eqn:Hfind.
    destruct (push p v labelValues) as [e'|] eqn:Hpush; simpl.
    + intros [= <-]. exists (k, v). simpl. rewrite Hfind. auto.
    + intros H. apply IH in H as (kv & Hin & Hkv). eauto.
Qed.

(** X14.  The update of a pool succeeds exactly when every push succeeds,
    whether the keys are known to the store or not; and when it fails while
    the properties were read, its error is the error of a push: the error of
    a failed lookup is logged, never returned. *)
Theorem updatePoolMetrics_error_is_push_error
    (error prop : Type) (find : string -> prop * option error)
    (push : prop -> string -> list string -> option error)
    (kvs : list (string * string)) (pool : string) :
  (snd (updatePoolMetrics find push (kvs, None) pool) = None
   <-> Forall (pushOk find push [pool]) kvs)
  /\ forall e,
       snd (updatePoolMetrics find push (kvs, None) pool) = Some e ->
       exists kv, In kv kvs
                  /\ push (fst (find (fst kv))) (snd kv) [pool] = Some e.
Proof.
  split; [|intros e; apply rangeProperties_error].
  unfold updatePoolMetrics. split.
  - generalize (@nil (event error prop)).
    induction kvs as [|[k v] rest IH]; intros trace; simpl; [constructor|].
    destruct (find k) as [p err] eqn:Hfind.
    destruct (push p v [pool]) as [e|] eqn:Hpush; simpl; [discriminate|].
    intros H. constructor.
    + unfold pushOk. simpl. rewrite Hfind. assumption.
    + eapply IH. eassumption.
  - intros Hok.
    rewrite <- (app_nil_r kvs).
    rewrite (rangeProperties_ok find push [pool] kvs [] Hok).
    reflexivity.
Qed.

Lemma errChan_empty {error : Type} (worker : string -> option error)
    (finished : list string) :
  errChan worker finished = []
  <-> forall pool, In pool finished -> worker pool = None.
Proof.
  induction finished as [|pool rest IH]; simpl.
  - split; [intros _ ? []|reflexivity].
  - destruct (worker pool) as [e|] eqn:Hw; simpl.
    + split; [discriminate|]. intros H.
      specialize (H pool (or_introl eq_refl)). congruence.
    + rewrite IH. split.
      * intros H p [<-|Hp]; auto.
      * intros H p Hp. apply H. now right.
Qed.

Lemma errChan_origin {error : Type} (worker : string -> option error)
    (finished : list string) (e : error) :
  In e (errChan worker finished) ->
  exists pool, In pool finished /\ worker pool = Some e.
Proof.
  unfold errChan. rewrite in_flat_map.
  intros (pool & Hin & He). exists pool. split; [assumption|].
  destruct (worker pool); simpl in He; [|contradiction].
  destruct He as [<-|[]]. reflexivity.
Qed.

(** X15.  Whatever the order in which the goroutines of
    [poolCollector.update] finish, the update returns nil exactly when the
    update of every pool returned nil, and an error that it returns is the
    error of the update of one of the pools. *)
Theorem poolUpdate_fails_iff_a_pool_fails
    (error : Type) (worker : string -> option error)
    (pools finished : list string) :
  Permutation finished pools ->
  (poolUpdate worker finished = None
   <-> forall pool, In pool pools -> worker pool = None)
  /\ forall e,
       poolUpdate worker finished = Some e ->
       exists pool, In pool pools /\ worker pool = Some e.
Proof.
  intros Hperm. unfold poolUpdate. split.
  - destruct (errChan worker finished) eqn:E.
    + split; intros _; [|reflexivity].
      intros pool Hpool. rewrite errChan_empty in E.
      apply E. eapply Permutation_in; [symmetry|]; eassumption.
    + split; [discriminate|]. intros H.
      assert (Hnil : errChan worker finished = []).
      { apply errChan_empty. intros pool Hpool. apply H.
        eapply Permutation_in; eassumption. }
      congruence.
  - intros e He.
    destruct (errChan worker finished) as [|e0 rest] eqn:E; [discriminate|].
    injection He as ->.
    destruct (errChan_origin worker finished e) as (pool & Hin & Hw).
    + rewrite E. now left.
    + exists pool. split; [|assumption].
      eapply Permutation_in; eassumption.
Qed.

Lemma poolUpdate_fails_iff_a_pool_fails_witness :
  (poolUpdate (fun pool => if String.eqb pool "dozer" then Some "failed" else None)
              ["dozer"; "tank"] = None
   <-> forall pool, In pool ["tank"; "dozer"] ->
         (if String.eqb pool "dozer" then Some "failed" else None) = None)
  /\ forall e,
       poolUpdate (fun pool => if String.eqb pool "dozer" then Some "failed" else None)
                  ["dozer"; "tank"] = Some e ->
       exists pool, In pool ["tank"; "dozer"]
                    /\ (if String.eqb pool "dozer" then Some "failed" else None)
                       = Some e.
Proof.
  apply (poolUpdate_fails_iff_a_pool_fails string
           (fun pool => if String.eqb pool "dozer" then Some "failed" else None)
           ["tank"; "dozer"] ["dozer"; "tank"]).
  apply perm_swap.
Defined.

Lemma sendDisk_described (disk : PoolDisk) :
  Forall (fun m =>
            In (desc (prometheus m)) (diskDescribe [])
            /\ name m = fqName (desc (prometheus m))
            /\ length (labelValues (prometheus m))
               = length (variableLabels (desc (prometheus m)))
            /\ valueType (prometheus m) = GaugeValue)
         (sendDisk [] disk).
Proof.
  unfold sendDisk.
  destruct (negb (String.eqb (Kind disk) "spare")); simpl;
    repeat (constructor; [simpl; intuition auto|]); constructor.
Qed.

(** X16.  Every metric that the update of the disk collector sends is
    consistent with what the collector describes: its descriptor is one of
    the four that [describe] sends, its name is the name of that descriptor,
    it has as many label values as the descriptor has labels, and it is a
    gauge. *)
Theorem disk_metrics_are_described
    (error : Type) (disks : list PoolDisk) :
  Forall (fun m =>
            In (desc (prometheus m)) (diskDescribe [])
            /\ name m = fqName (desc (prometheus m))
            /\ length (labelValues (prometheus m))
               = length (variableLabels (desc (prometheus m)))
            /\ valueType (prometheus m) = GaugeValue)
         (fst (update (error := error) (disks, None) [])).
Proof.
  simpl.
  induction disks as [|disk rest IH]; [constructor|].
  rewrite rangeDisks_cons. apply Forall_app. split; [|assumption].
  apply sendDisk_described.
Qed.

(* ===================================================================== *)
(** ** Reports moved to the right *)
(* ===================================================================== *)

Lemma padding_indent (count : nat) (line : string) :
  padding (indent count line) = Z.of_nat count + padding line.
Proof.
  unfold indent. induction count as [|count IH]; [reflexivity|].
  change (Repeat " " (S count) ++ line)%string
    with (String " " (Repeat " " count ++ line)%string).
  rewrite padding_space, IH. lia.
Qed.

Lemma Fields_indent (count : nat) (line : string) :
  Fields (indent count line) = Fields line.
Proof.
  unfold indent. induction count as [|count IH]; [reflexivity|].
  rewrite <- IH. reflexivity.
Qed.

Lemma isHeader_indent (count : nat) (line : string) :
  isHeader (indent count line) = isHeader line.
Proof.
  unfold indent. induction count as [|count IH]; [reflexivity|].
  rewrite <- IH. reflexivity.
Qed.

Lemma geb_shift (p m d : Z) : (d + p >=? m + d) = (p >=? m).
Proof.
  rewrite !Z.geb_leb.
  destruct (Z.leb_spec (m + d) (d + p)), (Z.leb_spec m p);
    try reflexivity; lia.
Qed.

(** A turn of the loop on a line moved to the right does what it does on the
    line, the indentation of the header being moved likewise. *)
Lemma body_indent (count : nat) (st : locals) (line : string) :
  body (shiftPadding (Z.of_nat count) st) (indent count line)
  = shiftControl (Z.of_nat count) (body st line).
Proof.
  unfold body.
  rewrite padding_indent, Fields_indent, isHeader_indent.
  destruct st as [disks inside minPad zpool vdev].
  destruct inside; unfold shiftPadding; simpl.
  - rewrite geb_shift.
    replace (Z.of_nat count + padding line - (minPad + Z.of_nat count))
      with (padding line - minPad) by lia.
    unfold spareRow, vdevRow, diskRow, counters.
    repeat match goal with
           | |- context [if ?b then _ else _] => destruct b
           | |- context [match ?x with _ => _ end] => destruct x
           end; reflexivity.
  - destruct (isHeader line); [|reflexivity].
    simpl. unfold enterDisks. simpl. rewrite Z.add_comm. reflexivity.
Qed.

Lemma loop_indent (count : nat) (lines : list string) :
  forall st,
    loop (shiftPadding (Z.of_nat count) st) (map (indent count) lines)
    = loop st lines.
Proof.
  induction lines as [|line rest IH]; intros st; simpl.
  - unfold shiftPadding. destruct (isInsideDisks st); reflexivity.
  - rewrite body_indent.
    destruct (body st line) as [st'|st'|err]; simpl.
    + apply IH.
    + unfold shiftPadding. destruct (isInsideDisks st'); reflexivity.
    + reflexivity.
Qed.

(** X17.  Only the indentation relative to the header counts: when every
    line of a report is moved to the right by the same number of spaces, the
    parser returns the same records and the same error. *)
Theorem uniform_indentation_is_irrelevant (count : nat) (lines : list string) :
  parsePoolDisksFromLines (map (indent count) lines)
  = parsePoolDisksFromLines lines.
Proof.
  unfold parsePoolDisksFromLines.
  apply (loop_indent count lines entry).
Qed.
